(** * The rsync storage plugin: inventory, metadata probing, transfer, globbing

    A shallow embedding of [snakemake_storage_plugin_rsync/__init__.py].
    The methods of [StorageObject] become computations in a small state and
    exception monad.  The state holds what the Python code reads and writes:
    the file system behind [os.stat], the results of external commands, the
    inventory cache object handed to [inventory], and a log of the system
    calls made so far.  A schedule of injected faults stands for transient
    I/O errors. *)

From Stdlib Require Import ZArith List Ascii String Bool Lia.
From stdpp Require Import gmap strings list.
Import ListNotations.
Local Open Scope string_scope.
Local Open Scope Z_scope.

(** ** The file system behind [os.stat] *)

Inductive errno := ENOENT | ENOTDIR | EBADF | ELOOP | EACCES | EIO.

Inductive file_type := S_IFREG | S_IFDIR | S_IFLNK.

(** The fields of [os.stat_result] the plugin reads.  [st_mtime] is a float
    in Python; the plugin only copies it, so a number stands for it. *)
Record stat_result := mk_stat
  { st_mode : file_type; st_size : Z; st_mtime : Z }.

(** A tree of files: directories list their entries in [scandir] order, a
    symbolic link holds the components of its (absolute) target. *)
#[warnings="-register-all"]
Inductive node :=
| File (size mtime : Z)
| Dir (size mtime : Z) (entries : list (string * node))
| Symlink (size mtime : Z) (target : list string).

Definition stat_of (n : node) : stat_result :=
  match n with
  | File sz mt => mk_stat S_IFREG sz mt
  | Dir sz mt _ => mk_stat S_IFDIR sz mt
  | Symlink sz mt _ => mk_stat S_IFLNK sz mt
  end.

Fixpoint child (name : string) (es : list (string * node)) : option node :=
  match es with
  | [] => None
  | (n, x) :: es' => if String.eqb n name then Some x else child name es'
  end.

Definition is_nil {A} (l : list A) : bool :=
  match l with [] => true | _ => false end.

(** Path resolution.  A link met on the way is always followed; a link in
    final position is followed when [follow] is set.  [deref] resolves the
    target of a link. *)
Fixpoint walk (deref : list string -> errno + node) (follow : bool)
    (cur : node) (p : list string) : errno + node :=
  match p with
  | [] => inr cur
  | c :: rest =>
    match cur with
    | Dir _ _ es =>
      match child c es with
      | None => inl ENOENT
      | Some (Symlink _ _ tgt as lnk) =>
        if is_nil rest && negb follow then inr lnk
        else match deref tgt with
             | inl e => inl e
             | inr n => walk deref follow n rest
             end
      | Some n => walk deref follow n rest
      end
    | _ => inl ENOTDIR
    end
  end.

(** Links nest at most [hops] deep, after which the kernel gives ELOOP. *)
Fixpoint resolve (hops : nat) (root : node) (follow : bool)
    (p : list string) : errno + node :=
  walk (match hops with
        | O => fun _ => inl ELOOP
        | S h => resolve h root true
        end) follow root p.

Definition MAXSYMLINKS : nat := 40.

(** ** pathlib paths *)

Record Path := mk_path { absolute : bool; parts : list string }.

(** [p / name] *)
Definition path_div (p : Path) (name : string) : Path :=
  mk_path (absolute p) (parts p ++ [name]).

(** [str(p)] *)
Definition path_str (p : Path) : string :=
  match parts p with
  | [] => if absolute p then "/" else "."
  | _ =>
    (if absolute p then "/" else EmptyString) ++ String.concat "/" (parts p)
  end.

Definition from_cwd (cwd : list string) (p : Path) : list string :=
  if absolute p then parts p else cwd ++ parts p.

Definition fs_stat (root : node) (cwd : list string) (follow : bool)
    (p : Path) : errno + stat_result :=
  match resolve MAXSYMLINKS root follow (from_cwd cwd p) with
  | inl e => inl e
  | inr n => inr (stat_of n)
  end.

(** What [p.rglob("*")] enumerates below a directory node: the entries of
    the directory, then those of each real sub-directory in turn (links to
    directories are listed but not entered). *)
Fixpoint rglob_star (n : node) : list (list string) :=
  match n with
  | Dir _ _ es =>
    List.map (fun e => [fst e]) es ++
    List.flat_map
      (fun e => let '(name, x) := e in List.map (cons name) (rglob_star x)) es
  | _ => []
  end.

Definition fs_rglob (root : node) (cwd : list string) (p : Path)
    : errno + list Path :=
  match resolve MAXSYMLINKS root true (from_cwd cwd p) with
  | inl e => inl e
  | inr n =>
    inr (List.map (fun q => mk_path (absolute p) (parts p ++ q)) (rglob_star n))
  end.

(** ** The inventory cache ([IOCacheStorageInterface]) *)

(** [Mtime(local=None, local_target=None, storage=None)] *)
Record Mtime := mk_Mtime
  { local : option Z; local_target : option Z; storage : option Z }.

Module IOCache.
Record t := mk
  { exists_in_storage : gmap string bool;
    mtime : gmap string Mtime;
    size : gmap string Z }.
Definition empty : t := mk ∅ ∅ ∅.
End IOCache.

(** ** Exceptions, state and the monad *)

Inductive exn :=
| OSError (e : errno)
| CalledProcessError (returncode : Z) (cmd : list string) (output : string)
| NameError (name : string)
| WorkflowError (msg : string).

(** [str(e)] for the two exceptions whose message the claims talk about. *)
Definition exn_message (e : exn) : string :=
  match e with
  | NameError name => "name '" ++ name ++ "' is not defined"
  | WorkflowError msg => msg
  | _ => EmptyString
  end.

Inductive event :=
| EvStat (p : Path) (follow : bool)
| EvScandir (p : Path)
| EvRun (cmd : list string).

(** The exit status and the captured, decoded output of a finished
    command. *)
Record completed := mk_completed { returncode : Z; stdout : string }.

Record State := mk_state
  { root : node;
    cwd : list string;
    faults : list (option errno);
    run_result : list string -> completed;
    calls : list event;
    cache : IOCache.t }.

Inductive outcome (A : Type) :=
| Ok (a : A)
| Raise (e : exn).
Arguments Ok {A} a.
Arguments Raise {A} e.

Definition M (A : Type) : Type := State -> outcome A * State.

Definition ret {A} (a : A) : M A := fun st => (Ok a, st).
Definition raise {A} (e : exn) : M A := fun st => (Raise e, st).
Definition bind {A B} (m : M A) (k : A -> M B) : M B :=
  fun st =>
    match m st with
    | (Ok a, st') => k a st'
    | (Raise e, st') => (Raise e, st')
    end.

Notation "x <- m ;; k" := (bind m (fun x => k))
  (at level 100, m at next level, right associativity).
Notation "m ;;; k" := (bind m (fun _ => k))
  (at level 100, right associativity).

(** [try: m except ...: h]; the handler answers [None] for an exception it
    does not catch. *)
Definition try_except {A} (m : M A) (h : exn -> option (M A)) : M A :=
  fun st =>
    match m st with
    | (Ok a, st') => (Ok a, st')
    | (Raise e, st') =>
      match h e with
      | Some k => k st'
      | None => (Raise e, st')
      end
    end.

Definition log (ev : event) (st : State) : State :=
  mk_state (root st) (cwd st) (faults st) (run_result st)
           (calls st ++ [ev]) (cache st).

Definition set_faults (fl : list (option errno)) (st : State) : State :=
  mk_state (root st) (cwd st) fl (run_result st) (calls st) (cache st).

Definition set_cache (c : IOCache.t) (st : State) : State :=
  mk_state (root st) (cwd st) (faults st) (run_result st) (calls st) c.

Definition of_errno {A} (r : errno + A) : outcome A :=
  match r with inl e => Raise (OSError e) | inr a => Ok a end.

(** A system call: it is logged, it fails with the fault scheduled for it
    if there is one, and otherwise answers from the state. *)
Definition syscall {A} (ev : event) (real : State -> errno + A) : M A :=
  fun st =>
    let st1 := log ev st in
    match faults st with
    | Some e :: fl => (Raise (OSError e), set_faults fl st1)
    | None :: fl => (of_errno (real st), set_faults fl st1)
    | [] => (of_errno (real st), st1)
    end.

(** [os.stat(p, follow_symlinks=follow)] *)
Definition os_stat (p : Path) (follow : bool) : M stat_result :=
  syscall (EvStat p follow) (fun st => fs_stat (root st) (cwd st) follow p).

(** pathlib's [_ignore_error]: the errnos for which [exists], [is_dir] and
    [is_symlink] answer [False] instead of raising. *)
Definition ignore_error (e : errno) : bool :=
  match e with
  | ENOENT | ENOTDIR | EBADF | ELOOP => true
  | _ => false
  end.

Definition false_if_ignored (e : exn) : option (M bool) :=
  match e with
  | OSError n => if ignore_error n then Some (ret false) else None
  | _ => None
  end.

Definition is_S_IFDIR (s : stat_result) : bool :=
  match st_mode s with S_IFDIR => true | _ => false end.
Definition is_S_IFLNK (s : stat_result) : bool :=
  match st_mode s with S_IFLNK => true | _ => false end.

(** [Path.exists()], [Path.is_dir()], [Path.is_symlink()] *)
Definition Path_exists (p : Path) : M bool :=
  try_except (os_stat p true ;;; ret true) false_if_ignored.
Definition Path_is_dir (p : Path) : M bool :=
  try_except (s <- os_stat p true ;; ret (is_S_IFDIR s)) false_if_ignored.
Definition Path_is_symlink (p : Path) : M bool :=
  try_except (s <- os_stat p false ;; ret (is_S_IFLNK s)) false_if_ignored.

(** ** The module's global names *)

(** The names bound at module level by the import statements and the two
    class definitions of [__init__.py].  A global the code reads that is
    neither here nor a builtin raises [NameError]. *)
Definition module_globals : list string :=
  [ "os"; "Path"; "shutil"; "subprocess"; "dataclass"; "field";
    "Any"; "Iterable"; "Optional"; "List"; "urlparse"; "sysrsync";
    "StorageProviderSettingsBase"; "StorageProviderBase";
    "StorageQueryValidationResult"; "ExampleQuery"; "Operation"; "QueryType";
    "StorageObjectRead"; "StorageObjectWrite"; "StorageObjectGlob";
    "StorageObjectTouch"; "retry_decorator";
    "IOCacheStorageInterface"; "Mtime"; "lutime";
    "StorageProvider"; "StorageObject" ].

Definition name_defined (G : list string) (name : string) : bool :=
  existsb (String.eqb name) G.

Definition load_name (G : list string) (name : string) : M unit :=
  if name_defined G name then ret tt else raise (NameError name).

(** ** [subprocess.run(cmd, check=True, stdout=PIPE, stderr=STDOUT)] *)

Definition subprocess_run (cmd : list string) : M completed :=
  r <- syscall (EvRun cmd) (fun st => inr (run_result st cmd)) ;;
  if returncode r =? 0 then ret r
  else raise (CalledProcessError (returncode r) cmd (stdout r)).

(** ** [Path(s)] for a string

    Empty and [.] components go; the path is absolute when the string
    starts with a slash. *)

Fixpoint split_on (c : ascii) (s : string) : list string :=
  match s with
  | EmptyString => [EmptyString]
  | String a s' =>
    if Ascii.eqb a c then EmptyString :: split_on c s'
    else match split_on c s' with
         | [] => [String a EmptyString]
         | h :: t => String a h :: t
         end
  end.

Definition starts_with_slash (s : string) : bool :=
  match s with String a _ => Ascii.eqb a "/"%char | _ => false end.

Definition Path_of_str (s : string) : Path :=
  mk_path (starts_with_slash s)
    (List.filter (fun x => negb (String.eqb x EmptyString || String.eqb x "."))
       (split_on "/"%char s)).

(** ** What [list_candidate_matches] returns *)

(** An element of the returned iterable: a [str] or a [Path] object. *)
Inductive candidate :=
| CStr (s : string)
| CPath (p : Path).

(** The generator made by [prefix.rglob("*")]: nothing is read from the
    file system before it is first advanced, and once run through it stays
    empty. *)
Inductive rglob_gen :=
| Fresh (p : Path)
| Exhausted.

(** The returned object: the tuple [(prefix,)], or the iterator
    [map(str, gen)]. *)
Inductive candidates :=
| Tuple (items : list Path)
| MapStr (gen : rglob_gen).

(** [list(v)]: the elements one pass over [v] yields, and the object as that
    pass leaves it. *)
Definition iterate (v : candidates) : M (list candidate * candidates) :=
  match v with
  | Tuple items => ret (List.map CPath items, Tuple items)
  | MapStr (Fresh p) =>
    ps <- syscall (EvScandir p) (fun st => fs_rglob (root st) (cwd st) p) ;;
    ret (List.map (fun q => CStr (path_str q)) ps, MapStr Exhausted)
  | MapStr Exhausted => ret ([], MapStr Exhausted)
  end.

(** ** The storage object *)

(** [query_path] and [scheme] are set by [__post_init__]; [local_path] and
    [cache_key] stand for what the inherited methods of the same names
    return for this object. *)
Record StorageObject := mk_obj
  { query : string;
    query_path : Path;
    scheme : string;
    local_path : Path;
    cache_key : string }.

Section Plugin.

(** [retry_decorator] of the interface package is reretry's [retry] with
    a positive number of tries: one attempt and [retries] more, any
    exception being retried.  The pauses between attempts are not
    modelled. *)
Variable retries : nat.
(** The global names in scope ([module_globals] for the module as it
    is). *)
Variable G : list string.
(** [sysrsync.get_rsync_command(source, destination, options=...)], taken
    as a function of its arguments: what it looks up to lay out the command
    line is not tracked. *)
Variable get_rsync_command : string -> string -> list string -> list string.
(** [get_constant_prefix] of the interface package: what the name would
    denote were it imported. *)
Variable get_constant_prefix : string -> string.

Fixpoint retry_loop {A} (more : nat) (f : M A) : M A :=
  fun st =>
    match f st with
    | (Ok a, st') => (Ok a, st')
    | (Raise e, st') =>
      match more with
      | O => (Raise e, st')
      | S k => retry_loop k f st'
      end
    end.

Definition retry_decorator {A} (f : M A) : M A := retry_loop retries f.

Definition _stat (self : StorageObject) (follow_symlinks : bool)
    : M stat_result :=
  os_stat (query_path self) follow_symlinks.

Definition _timestamp_path (self : StorageObject) : Path :=
  path_div (query_path self) ".snakemake_timestamp".

Definition _stat_to_mtime (self : StorageObject) (stat : stat_result)
    : M Z :=
  d <- Path_is_dir (query_path self) ;;
  if d then
    let timestamp := _timestamp_path self in
    e <- Path_exists timestamp ;;
    if e then
      s <- os_stat timestamp false ;;
      ret (st_mtime s)
    else ret (st_mtime stat)
  else ret (st_mtime stat).

Definition exists_ (self : StorageObject) : M bool :=
  retry_decorator (Path_exists (query_path self)).

Definition mtime (self : StorageObject) : M Z :=
  retry_decorator
    (s <- _stat self false ;;
     _stat_to_mtime self s).

Definition size (self : StorageObject) : M Z :=
  retry_decorator
    (s <- _stat self true ;;
     ret (st_size s)).

Definition get_cache : M IOCache.t := fun st => (Ok (cache st), st).
Definition update_cache (f : IOCache.t -> IOCache.t) : M unit :=
  fun st => (Ok tt, set_cache (f (cache st)) st).

(** [cache.exists_in_storage[key] = v] and its two siblings *)
Definition set_exists_in_storage (key : string) (v : bool) : M unit :=
  update_cache (fun c =>
    IOCache.mk (<[key := v]> (IOCache.exists_in_storage c))
               (IOCache.mtime c) (IOCache.size c)).
Definition set_mtime (key : string) (v : Mtime) : M unit :=
  update_cache (fun c =>
    IOCache.mk (IOCache.exists_in_storage c)
               (<[key := v]> (IOCache.mtime c)) (IOCache.size c)).
Definition set_size (key : string) (v : Z) : M unit :=
  update_cache (fun c =>
    IOCache.mk (IOCache.exists_in_storage c)
               (IOCache.mtime c) (<[key := v]> (IOCache.size c))).

(** [key in d] *)
Definition contains {V} (d : gmap string V) (key : string) : bool :=
  match d !! key with Some _ => true | None => false end.

(** [inventory] is declared [async] and awaits nothing: awaiting it runs the
    body through. *)
Definition inventory (self : StorageObject) : M unit :=
  let key := cache_key self in
  c <- get_cache ;;
  if contains (IOCache.exists_in_storage c) key then ret tt
  else
    e <- exists_ self ;;
    if negb e then set_exists_in_storage key false
    else
      stat <- _stat self true ;;
      l <- Path_is_symlink (query_path self) ;;
      lstat <- (if l then _stat self false else ret stat) ;;
      t <- _stat_to_mtime self lstat ;;
      set_mtime key (mk_Mtime None None (Some t)) ;;;
      set_size key (st_size stat) ;;;
      set_exists_in_storage key true.

Definition _run_cmd (cmd : list string) : M unit :=
  try_except (subprocess_run cmd ;;; ret tt)
    (fun e =>
       match e with
       | CalledProcessError _ _ out =>
         Some (load_name G "WorkflowError" ;;; raise (WorkflowError out))
       | _ => None
       end).

(** The three [print] calls of [retrieve_object] write to standard output,
    which the state does not hold. *)
Definition retrieve_object (self : StorageObject) : M unit :=
  retry_decorator
    (let cmd := get_rsync_command (path_str (query_path self))
                  (path_str (local_path self)) ["-av"] in
     _run_cmd cmd).

(** The bodies of [store_object] and [remove] are the expression [...]. *)
Definition store_object (self : StorageObject) : M unit :=
  retry_decorator (ret tt).

Definition remove (self : StorageObject) : M unit :=
  retry_decorator (ret tt).

Definition list_candidate_matches (self : StorageObject) : M candidates :=
  retry_decorator
    (load_name G "get_constant_prefix" ;;;
     let prefix := Path_of_str (get_constant_prefix (query self)) in
     d <- Path_is_dir prefix ;;
     if d then ret (MapStr (Fresh prefix))
     else ret (Tuple [prefix])).

End Plugin.

(** ** A sample tree *)

Definition sample_root : node :=
  Dir 4096 10
    [ ("data", Dir 4096 100
         [ (".snakemake_timestamp", File 0 200);
           ("a.txt", File 4 50);
           ("sub", Dir 4096 60 [ ("b.txt", File 8 70) ]) ]);
      ("plain", Dir 4096 300 [ ("c.txt", File 1 310) ]);
      ("f.txt", File 10 400);
      ("lnk", Symlink 5 500 ["f.txt"]);
      ("dangling", Symlink 7 600 ["missing"]);
      ("stale", Dir 4096 700
         [ (".snakemake_timestamp", Symlink 7 800 ["missing"]) ]);
      ("dlnk", Symlink 4 900 ["data"]);
      ("rsync:", Dir 4096 20
         [ ("results", Dir 4096 30
              [ ("x.txt", File 2 31); ("y.txt", File 3 32) ]) ]) ].

Definition no_output (cmd : list string) : completed :=
  mk_completed 0 EmptyString.

Definition sample_state : State :=
  mk_state sample_root [] [] no_output [] IOCache.empty.

Definition obj_at (name : string) : StorageObject :=
  mk_obj ("rsync:///" ++ name) (mk_path true [name]) "rsync"
         (mk_path false [".snakemake"; "storage"; "rsync"; name])
         ("rsync:///" ++ name).

(** A state whose cache already answers for [f.txt]. *)
Definition cached_state : State :=
  mk_state sample_root [] [] no_output []
    (IOCache.mk {[ "rsync:///f.txt" := false ]} ∅ ∅).

(** A state in which the second system call fails with EIO. *)
Definition faulty_state : State :=
  mk_state sample_root [] [None; Some EIO] no_output [] IOCache.empty.

(** A state in which every command exits with status 23. *)
Definition rsync_failure : string :=
  "rsync: link_stat failed: No such file or directory (2)".

Definition failing_run (cmd : list string) : completed :=
  mk_completed 23 rsync_failure.

Definition failing_state : State :=
  mk_state sample_root [] [] failing_run [] IOCache.empty.

(** A command line as [sysrsync] lays it out. *)
Definition sample_rsync_command (source destination : string)
    (options : list string) : list string :=
  (["rsync"] ++ options ++ [source; destination])%list.

(** The text before the first brace: what [get_constant_prefix] answers on
    a query whose first brace opens a wildcard. *)
Fixpoint before_brace (s : string) : string :=
  match s with
  | EmptyString => EmptyString
  | String a s' =>
    if Ascii.eqb a "{"%char then EmptyString else String a (before_brace s')
  end.

Definition wildcard_obj : StorageObject :=
  mk_obj "rsync://results/{sample}.txt"
         (mk_path false ["results"; "{sample}.txt"]) "rsync"
         (mk_path false [".snakemake"; "storage"; "rsync"; "results"; "{sample}.txt"])
         "rsync://results/{sample}.txt".

(** ** What the probes answer when no fault is scheduled *)

Definition logs (evs : list event) (st : State) : State :=
  mk_state (root st) (cwd st) (faults st) (run_result st)
           (calls st ++ evs) (cache st).

Definition fs_exists (r : node) (c : list string) (p : Path) : bool :=
  match fs_stat r c true p with inr _ => true | inl _ => false end.

Definition fs_is_dir (r : node) (c : list string) (p : Path) : bool :=
  match fs_stat r c true p with inr s => is_S_IFDIR s | inl _ => false end.

Definition fs_is_symlink (r : node) (c : list string) (p : Path) : bool :=
  match fs_stat r c false p with inr s => is_S_IFLNK s | inl _ => false end.

Definition stat_mtime (r : errno + stat_result) : outcome Z :=
  match r with inl e => Raise (OSError e) | inr s => Ok (st_mtime s) end.

Definition fs_stat_to_mtime (r : node) (c : list string)
    (self : StorageObject) (stat : stat_result) : outcome Z :=
  if fs_is_dir r c (query_path self) && fs_exists r c (_timestamp_path self)
  then stat_mtime (fs_stat r c false (_timestamp_path self))
  else Ok (st_mtime stat).

(** A computation that, run without faults, answers [R] and only adds to
    the call log. *)
Definition quiet_run {A} (m : M A) (R : State -> outcome A) : Prop :=
  forall st, faults st = [] -> exists evs, m st = (R st, logs evs st).

Definition stable {A} (R : State -> A) : Prop :=
  forall evs st, R (logs evs st) = R st.

(** A computation that never writes to the inventory cache. *)
Definition keeps_cache {A} (m : M A) : Prop :=
  forall st r st', m st = (r, st') -> cache st' = cache st.

(** A link that is there while a [stat] through it fails. *)
Definition dangling_symlink (r : node) (c : list string) (p : Path) : Prop :=
  (exists l, fs_stat r c false p = inr l /\ is_S_IFLNK l = true) /\
  (exists e, fs_stat r c true p = inl e).

(** The first claim as it is worded: the sentinel counts as present when an
    [lstat] of it succeeds. *)
Definition sentinel_lstat_present (r : node) (c : list string)
    (self : StorageObject) : bool :=
  match fs_stat r c false (_timestamp_path self) with
  | inr _ => true
  | inl _ => false
  end.

Definition mtime_as_worded (r : node) (c : list string)
    (self : StorageObject) : outcome Z :=
  if fs_is_dir r c (query_path self) && sentinel_lstat_present r c self
  then stat_mtime (fs_stat r c false (_timestamp_path self))
  else stat_mtime (fs_stat r c false (query_path self)).

(** The fourth claim as it is worded: the time written is the [st_mtime]
    of the [lstat] for a link, and of the following [stat] otherwise. *)
Definition cached_mtime_as_worded (r : node) (c : list string)
    (self : StorageObject) : option Mtime :=
  match fs_stat r c true (query_path self),
        fs_stat r c false (query_path self) with
  | inr s, inr l =>
    Some (mk_Mtime None None (Some (st_mtime (if is_S_IFLNK l then l else s))))
  | _, _ => None
  end.

(** [out in msg] *)
Definition contains_text (out msg : string) : bool :=
  match String.index 0 out msg with Some _ => true | None => false end.

(** ** [urllib.parse.urlparse] *)

(** The named fields of [urllib.parse.ParseResult]. *)
Module Url.
Record ParseResult := mk
  { scheme : string; netloc : string; path : string;
    params : string; query : string; fragment : string }.
End Url.

(** [ValueError(msg)], the one exception [urlparse] raises on a string. *)
Inductive url_error := ValueError (msg : string).

Definition error_text (e : url_error) : string :=
  match e with ValueError msg => msg end.

Definition code_in (lo hi : nat) (a : ascii) : bool :=
  (lo <=? nat_of_ascii a)%nat && (nat_of_ascii a <=? hi)%nat.

(** The characters of [_WHATWG_C0_CONTROL_OR_SPACE]. *)
Definition is_c0_or_space (a : ascii) : bool := code_in 0 32 a.

(** Tab, line feed and carriage return: [_UNSAFE_URL_BYTES_TO_REMOVE]. *)
Definition is_unsafe (a : ascii) : bool :=
  Ascii.eqb a "009"%char || Ascii.eqb a "010"%char || Ascii.eqb a "013"%char.

Definition is_ascii_alpha (a : ascii) : bool :=
  code_in 65 90 a || code_in 97 122 a.

(** Membership in [scheme_chars]: letters, digits and [+-.]. *)
Definition is_scheme_char (a : ascii) : bool :=
  is_ascii_alpha a || code_in 48 57 a ||
  Ascii.eqb a "+"%char || Ascii.eqb a "-"%char || Ascii.eqb a "."%char.

Definition is_ascii (a : ascii) : bool := code_in 0 127 a.

Definition lower_ascii (a : ascii) : ascii :=
  if code_in 65 90 a then ascii_of_nat (nat_of_ascii a + 32) else a.

Fixpoint string_forallb (p : ascii -> bool) (s : string) : bool :=
  match s with
  | EmptyString => true
  | String a s' => p a && string_forallb p s'
  end.

Fixpoint string_existsb (p : ascii -> bool) (s : string) : bool :=
  match s with
  | EmptyString => false
  | String a s' => p a || string_existsb p s'
  end.

Fixpoint string_map (f : ascii -> ascii) (s : string) : string :=
  match s with
  | EmptyString => EmptyString
  | String a s' => String (f a) (string_map f s')
  end.

(** [s.lower()] on the ASCII letters. *)
Definition lower (s : string) : string := string_map lower_ascii s.

(** [url.lstrip(_WHATWG_C0_CONTROL_OR_SPACE)] *)
Fixpoint lstrip_c0 (s : string) : string :=
  match s with
  | EmptyString => EmptyString
  | String a s' => if is_c0_or_space a then lstrip_c0 s' else s
  end.

(** [url.replace(b, "")] for each of the three unsafe characters. *)
Fixpoint remove_unsafe (s : string) : string :=
  match s with
  | EmptyString => EmptyString
  | String a s' =>
    if is_unsafe a then remove_unsafe s' else String a (remove_unsafe s')
  end.

(** The text before the first character that satisfies [p], and the text
    from that character on (empty when there is none). *)
Fixpoint break_at (p : ascii -> bool) (s : string) : string * string :=
  match s with
  | EmptyString => (EmptyString, EmptyString)
  | String a s' =>
    if p a then (EmptyString, s)
    else let '(h, t) := break_at p s' in (String a h, t)
  end.

(** The position of the last character satisfying [p]: the text up to and
    including it, and the text after it. *)
Fixpoint break_after_last (p : ascii -> bool) (s : string)
    : option (string * string) :=
  match s with
  | EmptyString => None
  | String a s' =>
    match break_after_last p s' with
    | Some (h, t) => Some (String a h, t)
    | None => if p a then Some (String a EmptyString, s') else None
    end
  end.

Definition is_char (c : ascii) (a : ascii) : bool := Ascii.eqb a c.

(** The scheme step of [urlsplit]: with [i = url.find(':')], a first
    character that is an ASCII letter and only scheme characters before the
    colon, the scheme is [url[:i].lower()] and the rest is [url[i+1:]]. *)
Definition split_scheme (url : string) : string * string :=
  match break_at (is_char ":") url with
  | (String a h, String _ t) =>
    if is_ascii a && is_ascii_alpha a && string_forallb is_scheme_char (String a h)
    then (lower (String a h), t)
    else (EmptyString, url)
  | _ => (EmptyString, url)
  end.

Definition is_netloc_end (a : ascii) : bool :=
  is_char "/" a || is_char "?" a || is_char "#" a.

(** [netloc.partition('[')[2].partition(']')[0]] *)
Definition bracketed_host (netloc : string) : string :=
  match snd (break_at (is_char "[") netloc) with
  | String _ t => fst (break_at (is_char "]") t)
  | EmptyString => EmptyString
  end.

(** [url.split(c, 1)] when [c] is in [url]. *)
Definition split_once (c : ascii) (url : string) : string * string :=
  match break_at (is_char c) url with
  | (h, String _ t) => (h, t)
  | (h, EmptyString) => (h, EmptyString)
  end.

Definition is_hash_or_question (a : ascii) : bool :=
  is_char "#" a || is_char "?" a.

Definition uses_params : list string :=
  [ EmptyString; "ftp"; "hdl"; "prospero"; "http"; "imap"; "https"; "shttp";
    "rtsp"; "rtspu"; "sip"; "sips"; "mms"; "sftp"; "tel" ].

(** [_splitparams(url)], called when [;] is in [url]. *)
Definition _splitparams (url : string) : string * string :=
  match break_after_last (is_char "/") url with
  | Some (h, t) =>
    if string_existsb (is_char ";") t
    then let '(p, q) := split_once ";" t in (h ++ p, q)
    else (url, EmptyString)
  | None => split_once ";" url
  end.

(** ** The queries of the provider *)

Module StorageQueryValidationResult.
Record t := mk { query : string; valid : bool; reason : option string }.
End StorageQueryValidationResult.

Inductive QueryType := INPUT | OUTPUT | ANY.

Module ExampleQuery.
Record t := mk { query : string; type : QueryType; description : string }.
End ExampleQuery.

Section Queries.

(** Two checks of [urlsplit] are taken as given: [_check_bracketed_host],
    which answers the message of the [ValueError] it raises, if any, and
    the NFKC test [_checknetloc] makes on a netloc that is not ASCII. *)
Variable check_bracketed_host : string -> option string.
Variable check_nfkc : string -> option string.

(** The netloc step of [urlsplit], for a [url] that starts with [//]. *)
Definition check_brackets (netloc : string) : url_error + unit :=
  let has_open := string_existsb (is_char "[") netloc in
  let has_close := string_existsb (is_char "]") netloc in
  if (has_open && negb has_close) || (has_close && negb has_open)
  then inl (ValueError "Invalid IPv6 URL")
  else if has_open && has_close
  then match check_bracketed_host (bracketed_host netloc) with
       | Some msg => inl (ValueError msg)
       | None => inr tt
       end
  else inr tt.

(** [_checknetloc(netloc)] *)
Definition _checknetloc (netloc : string) : url_error + unit :=
  if is_nil (list_ascii_of_string netloc) || string_forallb is_ascii netloc
  then inr tt
  else match check_nfkc netloc with
       | Some msg => inl (ValueError msg)
       | None => inr tt
       end.

(** [urlsplit(url)]: scheme, netloc, path, query, fragment. *)
Definition urlsplit (url : string)
    : url_error + (string * string * string * string * string) :=
  let url := remove_unsafe (lstrip_c0 url) in
  let '(scheme, url) := split_scheme url in
  match
    (match url with
     | String "/" (String "/" after) =>
       let '(netloc, rest) := break_at is_netloc_end after in
       match check_brackets netloc with
       | inl e => inl e
       | inr _ => inr (netloc, rest)
       end
     | _ => inr (EmptyString, url)
     end)
  with
  | inl e => inl e
  | inr (netloc, url) =>
    let '(url, fragment) :=
      if string_existsb (is_char "#") url then split_once "#" url
      else (url, EmptyString) in
    let '(url, query) :=
      if string_existsb (is_char "?") url then split_once "?" url
      else (url, EmptyString) in
    match _checknetloc netloc with
    | inl e => inl e
    | inr _ => inr (scheme, netloc, url, query, fragment)
    end
  end.

Definition urlparse (url : string) : url_error + Url.ParseResult :=
  match urlsplit url with
  | inl e => inl e
  | inr (scheme, netloc, url, query, fragment) =>
    let '(url, params) :=
      if existsb (String.eqb scheme) uses_params &&
         string_existsb (is_char ";") url
      then _splitparams url
      else (url, EmptyString) in
    inr (Url.mk scheme netloc url params query fragment)
  end.

(** [StorageProvider.example_queries] *)
Definition example_queries : list ExampleQuery.t :=
  [ ExampleQuery.mk "rsync://test/test.txt" INPUT "A rsync URL" ].

(** The bodies of [rate_limiter_key], [default_max_requests_per_second] and
    [use_rate_limiter] are the expression [...]: each returns [None]. *)
Definition rate_limiter_key (query : string) : option string := None.
Definition default_max_requests_per_second : option Z := None.
Definition use_rate_limiter : option bool := None.

(** [StorageProvider.is_valid_query] *)
Definition is_valid_query (query : string) : StorageQueryValidationResult.t :=
  match urlparse query with
  | inl e =>
    StorageQueryValidationResult.mk query false
      (Some ("cannot be parsed as URL (" ++ error_text e ++ ")"))
  | inr parsed =>
    if negb (String.eqb (Url.scheme parsed) "rsync")
    then StorageQueryValidationResult.mk query false
           (Some "scheme must be rsync")
    else StorageQueryValidationResult.mk query true None
  end.

(** [StorageObject.__post_init__], on the object as the inherited
    [__init__] leaves it: it sets [query_path] and [scheme]. *)
Definition __post_init__ (self : StorageObject) : url_error + StorageObject :=
  match urlparse (query self) with
  | inl e => inl e
  | inr parsed =>
    let query' := Url.netloc parsed ++ Url.path parsed in
    inr (mk_obj (query self) (Path_of_str query') (Url.scheme parsed)
                (local_path self) (cache_key self))
  end.

(** [StorageObject.local_suffix] *)
Definition local_suffix (self : StorageObject) : url_error + string :=
  match urlparse (query self) with
  | inl e => inl e
  | inr parsed => inr (Url.netloc parsed ++ Url.path parsed)
  end.

End Queries.

(** [StorageObject.get_inventory_parent] *)
Definition get_inventory_parent (self : StorageObject) : option string := None.

(** [StorageObject.cleanup]: its body is [pass]. *)
Definition cleanup (self : StorageObject) : M unit := ret tt.

(** ** Relations between the state before and after a call *)

(** A computation all of whose runs relate the state they start from to the
    state they end in by [R]. *)
Definition preserves (R : State -> State -> Prop) {A} (m : M A) : Prop :=
  forall st r st', m st = (r, st') -> R st st'.

Definition is_stat_event (ev : event) : bool :=
  match ev with EvStat _ _ => true | _ => false end.

(** What a run that only probes may change: it appends [stat] calls to the
    log and uses up scheduled faults; the tree, the working directory and
    the commands' results stay. *)
Definition probe_step (st st' : State) : Prop :=
  root st' = root st /\ cwd st' = cwd st /\ run_result st' = run_result st /\
  (exists evs,
     calls st' = (calls st ++ evs)%list /\ forallb is_stat_event evs = true) /\
  (exists used, faults st = (used ++ faults st')%list).

(** Every key recorded as existing has a modification time and a size. *)
Definition cache_wf (c : IOCache.t) : Prop :=
  forall k, IOCache.exists_in_storage c !! k = Some true ->
            is_Some (IOCache.mtime c !! k) /\ is_Some (IOCache.size c !! k).

(** Two caches that agree on every key but [key]. *)
Definition same_elsewhere (key : string) (c c' : IOCache.t) : Prop :=
  forall k, k <> key ->
    IOCache.exists_in_storage c' !! k = IOCache.exists_in_storage c !! k /\
    IOCache.mtime c' !! k = IOCache.mtime c !! k /\
    IOCache.size c' !! k = IOCache.size c !! k.

(** ** Paths that survive a passage through a query *)

(** An ASCII character that [urlsplit] and [Path] both take as it is. *)
Definition is_plain_char (a : ascii) : bool :=
  is_ascii a &&
  negb (is_char "/" a || is_char "?" a || is_char "#" a ||
        is_char "[" a || is_char "]" a || is_unsafe a).

Definition clean_part (s : string) : bool :=
  string_forallb is_plain_char s &&
  negb (String.eqb s EmptyString) && negb (String.eqb s ".").

Definition clean_path (p : Path) : bool := forallb clean_part (parts p).

(** The characters of the text of a clean path: plain ones and slashes. *)
Definition is_path_char (a : ascii) : bool :=
  is_ascii a &&
  negb (is_char "?" a || is_char "#" a || is_char "[" a || is_char "]" a ||
        is_unsafe a).

(** ** Sample queries *)

(** Checks that let every netloc through. *)
Definition no_check (s : string) : option string := None.

(** An object as the inherited [__init__] leaves it, before
    [__post_init__] runs. *)
Definition bare_object (q : string) : StorageObject :=
  mk_obj q (mk_path false []) EmptyString (mk_path false []) q.

(** ** The system calls of a fault-free inventory *)

Definition stat_to_mtime_trace (r : node) (c : list string)
    (self : StorageObject) : list event :=
  EvStat (query_path self) true ::
  (if fs_is_dir r c (query_path self)
   then EvStat (_timestamp_path self) true ::
        (if fs_exists r c (_timestamp_path self)
         then [EvStat (_timestamp_path self) false] else [])
   else []).

Definition inventory_trace (r : node) (c : list string)
    (self : StorageObject) : list event :=
  EvStat (query_path self) true ::
  (if fs_exists r c (query_path self)
   then EvStat (query_path self) true ::
        EvStat (query_path self) false ::
        ((if fs_is_symlink r c (query_path self)
          then [EvStat (query_path self) false] else []) ++
         stat_to_mtime_trace r c self)%list
   else []).

(** ** Path resolution *)

Lemma walk_errno deref follow :
  (forall t e, deref t = inl e -> ignore_error e = true) ->
  forall p cur e, walk deref follow cur p = inl e -> ignore_error e = true.
Proof.
  intros Hd p. induction p as [|c rest IH]; intros cur e; simpl.
  - discriminate.
  - destruct cur as [? ?|? ? es|? ? ?]; try (intros [= <-]; reflexivity).
    destruct (child c es) as [[? ?|? ? ?|? ? tgt]|].
    + apply IH.
    + apply IH.
    + destruct (is_nil rest && negb follow); [discriminate|].
      destruct (deref tgt) as [e'|n] eqn:E.
      * intros [= <-]. eapply Hd, E.
      * apply IH.
    + intros [= <-]. reflexivity.
Qed.

Lemma resolve_errno hops r follow p e :
  resolve hops r follow p = inl e -> ignore_error e = true.
Proof.
  revert follow p e. induction hops as [|h IH]; intros follow p e; simpl.
  - apply walk_errno. intros t e' [= <-]. reflexivity.
  - apply walk_errno. intros t e'. apply IH.
Qed.

Lemma fs_stat_errno r c follow p e :
  fs_stat r c follow p = inl e -> ignore_error e = true.
Proof.
  unfold fs_stat.
  destruct (resolve MAXSYMLINKS r follow (from_cwd c p)) eqn:E; [|discriminate].
  intros [= <-]. eapply resolve_errno, E.
Qed.

(** Where a [stat] that follows links succeeds, so does one that stops at
    a final link. *)
Lemma walk_nofollow deref p :
  forall cur n, walk deref true cur p = inr n ->
  exists n', walk deref false cur p = inr n'.
Proof.
  induction p as [|c rest IH]; intros cur n; simpl.
  - eauto.
  - destruct cur as [? ?|? ? es|? ? ?]; try discriminate.
    destruct (child c es) as [[? ?|? ? ?|? ? tgt]|]; try discriminate.
    + apply IH.
    + apply IH.
    + rewrite andb_false_r.
      destruct (is_nil rest); simpl; [eauto|].
      destruct (deref tgt); [discriminate|]. apply IH.
Qed.

Lemma fs_stat_nofollow r c p s :
  fs_stat r c true p = inr s -> exists l, fs_stat r c false p = inr l.
Proof.
  unfold fs_stat.
  destruct (resolve MAXSYMLINKS r true (from_cwd c p)) as [|n] eqn:E;
    [discriminate|].
  intros _. unfold MAXSYMLINKS in *. simpl in E |- *.
  apply walk_nofollow in E as [n' ->]. eauto.
Qed.

Lemma fs_exists_lstat r c p :
  fs_exists r c p = true -> exists l, fs_stat r c false p = inr l.
Proof.
  unfold fs_exists. destruct (fs_stat r c true p) eqn:E; [discriminate|].
  intros _. eapply fs_stat_nofollow, E.
Qed.

Lemma fs_is_dir_exists r c p : fs_is_dir r c p = true -> fs_exists r c p = true.
Proof.
  unfold fs_is_dir, fs_exists. destruct (fs_stat r c true p); congruence.
Qed.

(** ** The call log *)

Lemma log_logs ev st : log ev st = logs [ev] st.
Proof. reflexivity. Qed.

Lemma logs_logs e1 e2 st : logs e2 (logs e1 st) = logs (e1 ++ e2) st.
Proof. unfold logs; simpl. by rewrite app_assoc. Qed.

Lemma logs_nil st : logs [] st = st.
Proof. destruct st; unfold logs; simpl. by rewrite app_nil_r. Qed.

Lemma set_cache_logs c evs st : set_cache c (logs evs st) = logs evs (set_cache c st).
Proof. reflexivity. Qed.

(** ** Fault-free runs *)

Lemma syscall_quiet {A} ev (real : State -> errno + A) st :
  faults st = [] -> syscall ev real st = (of_errno (real st), logs [ev] st).
Proof. intros H. unfold syscall. rewrite H. reflexivity. Qed.

Lemma os_stat_quiet p follow st :
  faults st = [] ->
  os_stat p follow st =
  (of_errno (fs_stat (root st) (cwd st) follow p), logs [EvStat p follow] st).
Proof. intros H. unfold os_stat. by rewrite syscall_quiet. Qed.

Lemma Path_exists_quiet p st :
  faults st = [] ->
  Path_exists p st =
  (Ok (fs_exists (root st) (cwd st) p), logs [EvStat p true] st).
Proof.
  intros H. unfold Path_exists, try_except, bind, fs_exists.
  rewrite os_stat_quiet by done.
  destruct (fs_stat (root st) (cwd st) true p) as [e|s] eqn:E; simpl; [|done].
  by rewrite (fs_stat_errno _ _ _ _ _ E).
Qed.

Lemma Path_is_dir_quiet p st :
  faults st = [] ->
  Path_is_dir p st =
  (Ok (fs_is_dir (root st) (cwd st) p), logs [EvStat p true] st).
Proof.
  intros H. unfold Path_is_dir, try_except, bind, fs_is_dir.
  rewrite os_stat_quiet by done.
  destruct (fs_stat (root st) (cwd st) true p) as [e|s] eqn:E; simpl; [|done].
  by rewrite (fs_stat_errno _ _ _ _ _ E).
Qed.

Lemma Path_is_symlink_quiet p st :
  faults st = [] ->
  Path_is_symlink p st =
  (Ok (fs_is_symlink (root st) (cwd st) p), logs [EvStat p false] st).
Proof.
  intros H. unfold Path_is_symlink, try_except, bind, fs_is_symlink.
  rewrite os_stat_quiet by done.
  destruct (fs_stat (root st) (cwd st) false p) as [e|s] eqn:E; simpl; [|done].
  by rewrite (fs_stat_errno _ _ _ _ _ E).
Qed.

Lemma _stat_to_mtime_quiet self stat st :
  faults st = [] ->
  exists evs,
    _stat_to_mtime self stat st =
    (fs_stat_to_mtime (root st) (cwd st) self stat, logs evs st).
Proof.
  intros H. unfold _stat_to_mtime, fs_stat_to_mtime, bind.
  rewrite Path_is_dir_quiet by done.
  destruct (fs_is_dir (root st) (cwd st) (query_path self)); simpl;
    [|by eexists].
  rewrite Path_exists_quiet by done. simpl.
  destruct (fs_exists (root st) (cwd st) (_timestamp_path self)); simpl;
    [|eexists; by rewrite logs_logs].
  rewrite os_stat_quiet by done. simpl.
  destruct (fs_stat (root st) (cwd st) false (_timestamp_path self)); simpl;
    eexists; by rewrite !logs_logs.
Qed.

Lemma retry_loop_quiet {A} (f : M A) (R : State -> outcome A) :
  stable R -> quiet_run f R -> forall n, quiet_run (retry_loop n f) R.
Proof.
  intros HR Hf n. induction n as [|k IH]; intros st Hq; simpl.
  - destruct (Hf st Hq) as [evs ->]. destruct (R st); by eexists.
  - destruct (Hf st Hq) as [evs ->]. destruct (R st) as [a|e] eqn:E.
    + by eexists.
    + destruct (IH (logs evs st) Hq) as [evs' ->].
      rewrite HR, E, logs_logs. by eexists.
Qed.

Lemma exists_quiet retries self st :
  faults st = [] ->
  exists evs,
    exists_ retries self st =
    (Ok (fs_exists (root st) (cwd st) (query_path self)), logs evs st).
Proof.
  intros H. unfold exists_, retry_decorator.
  apply (retry_loop_quiet _
    (fun st => Ok (fs_exists (root st) (cwd st) (query_path self))));
    [done| |done].
  intros st' H'. rewrite Path_exists_quiet by done. by eexists.
Qed.

Lemma mtime_quiet retries self st :
  faults st = [] ->
  exists evs,
    mtime retries self st =
    (match fs_stat (root st) (cwd st) false (query_path self) with
     | inl e => Raise (OSError e)
     | inr s => fs_stat_to_mtime (root st) (cwd st) self s
     end, logs evs st).
Proof.
  intros H. unfold mtime, retry_decorator.
  apply (retry_loop_quiet _
    (fun st => match fs_stat (root st) (cwd st) false (query_path self) with
               | inl e => Raise (OSError e)
               | inr s => fs_stat_to_mtime (root st) (cwd st) self s
               end)); [done| |done].
  intros st' H'. unfold bind, _stat. rewrite os_stat_quiet by done.
  destruct (fs_stat (root st') (cwd st') false (query_path self)) as [e|s];
    simpl; [by eexists|].
  destruct (_stat_to_mtime_quiet self s (logs [EvStat (query_path self) false] st'))
    as [evs ->]; [done|].
  simpl. rewrite logs_logs. by eexists.
Qed.

(** ** Probing leaves the cache alone *)

Lemma keeps_cache_ret {A} (a : A) : keeps_cache (ret a).
Proof. intros st r st' [= <- <-]. done. Qed.

Lemma keeps_cache_bind {A B} (m : M A) (k : A -> M B) :
  keeps_cache m -> (forall a, keeps_cache (k a)) -> keeps_cache (bind m k).
Proof.
  intros Hm Hk st r st'. unfold bind.
  destruct (m st) as [[a|e] st1] eqn:E.
  - intros H. rewrite (Hk _ _ _ _ H). eapply Hm, E.
  - intros [= <- <-]. eapply Hm, E.
Qed.

Lemma keeps_cache_syscall {A} ev (real : State -> errno + A) :
  keeps_cache (syscall ev real).
Proof.
  intros st r st'. unfold syscall.
  destruct (faults st) as [|[e|] fl]; intros [= <- <-]; done.
Qed.

Lemma keeps_cache_try {A} (m : M A) h :
  keeps_cache m -> (forall e k, h e = Some k -> keeps_cache k) ->
  keeps_cache (try_except m h).
Proof.
  intros Hm Hh st r st'. unfold try_except.
  destruct (m st) as [[a|e] st1] eqn:E.
  - intros [= <- <-]. eapply Hm, E.
  - destruct (h e) as [k|] eqn:Eh.
    + intros H. rewrite (Hh _ _ Eh _ _ _ H). eapply Hm, E.
    + intros [= <- <-]. eapply Hm, E.
Qed.

Lemma keeps_cache_retry {A} (f : M A) n :
  keeps_cache f -> keeps_cache (retry_loop n f).
Proof.
  intros Hf. induction n as [|k IH]; intros st r st'; simpl;
    destruct (f st) as [[a|e] st1] eqn:E.
  - intros [= <- <-]. eapply Hf, E.
  - intros [= <- <-]. eapply Hf, E.
  - intros [= <- <-]. eapply Hf, E.
  - intros H. rewrite (IH _ _ _ H). eapply Hf, E.
Qed.

Lemma false_if_ignored_keeps e k :
  false_if_ignored e = Some k -> keeps_cache k.
Proof.
  destruct e as [n| | |]; simpl; try discriminate.
  destruct (ignore_error n); [|discriminate].
  intros [= <-]. apply keeps_cache_ret.
Qed.

Lemma keeps_cache_os_stat p follow : keeps_cache (os_stat p follow).
Proof. apply keeps_cache_syscall. Qed.

Lemma keeps_cache_Path_exists p : keeps_cache (Path_exists p).
Proof.
  apply keeps_cache_try; [|apply false_if_ignored_keeps].
  apply keeps_cache_bind; [apply keeps_cache_os_stat|].
  intros; apply keeps_cache_ret.
Qed.

Lemma keeps_cache_Path_is_dir p : keeps_cache (Path_is_dir p).
Proof.
  apply keeps_cache_try; [|apply false_if_ignored_keeps].
  apply keeps_cache_bind; [apply keeps_cache_os_stat|].
  intros; apply keeps_cache_ret.
Qed.

Lemma keeps_cache_Path_is_symlink p : keeps_cache (Path_is_symlink p).
Proof.
  apply keeps_cache_try; [|apply false_if_ignored_keeps].
  apply keeps_cache_bind; [apply keeps_cache_os_stat|].
  intros; apply keeps_cache_ret.
Qed.

Lemma keeps_cache_stat_to_mtime self stat : keeps_cache (_stat_to_mtime self stat).
Proof.
  unfold _stat_to_mtime.
  apply keeps_cache_bind; [apply keeps_cache_Path_is_dir|].
  intros [|]; [|apply keeps_cache_ret].
  apply keeps_cache_bind; [apply keeps_cache_Path_exists|].
  intros [|]; [|apply keeps_cache_ret].
  apply keeps_cache_bind; [apply keeps_cache_os_stat|].
  intros; apply keeps_cache_ret.
Qed.

Lemma keeps_cache_exists retries self : keeps_cache (exists_ retries self).
Proof. apply keeps_cache_retry, keeps_cache_Path_exists. Qed.

(** ** The inventory *)

Lemma inventory_fresh_key retries self st :
  IOCache.exists_in_storage (cache st) !! cache_key self = None ->
  inventory retries self st =
  (e <- exists_ retries self ;;
   if negb e then set_exists_in_storage (cache_key self) false
   else
     stat <- _stat self true ;;
     l <- Path_is_symlink (query_path self) ;;
     lstat <- (if l then _stat self false else ret stat) ;;
     t <- _stat_to_mtime self lstat ;;
     set_mtime (cache_key self) (mk_Mtime None None (Some t)) ;;;
     set_size (cache_key self) (st_size stat) ;;;
     set_exists_in_storage (cache_key self) true) st.
Proof.
  intros H. unfold inventory at 1, bind at 1, get_cache, contains.
  by rewrite H.
Qed.

(** C2. When the object's key is already in [exists_in_storage], whatever
    the value stored, [inventory] returns at once: the whole state comes
    back as it was, so no system call was made (the call log and the fault
    schedule are untouched) and the three mappings of the cache are the
    same. *)
Theorem inventory_cached_key_noop retries self st b :
  IOCache.exists_in_storage (cache st) !! cache_key self = Some b ->
  inventory retries self st = (Ok tt, st).
Proof.
  intros H. unfold inventory, bind, get_cache, contains. by rewrite H.
Qed.

Lemma inventory_exists_false retries self st st1 :
  IOCache.exists_in_storage (cache st) !! cache_key self = None ->
  exists_ retries self st = (Ok false, st1) ->
  inventory retries self st =
  (Ok tt,
   set_cache
     (IOCache.mk
        (<[cache_key self := false]> (IOCache.exists_in_storage (cache st)))
        (IOCache.mtime (cache st)) (IOCache.size (cache st))) st1).
Proof.
  intros Hk He. rewrite inventory_fresh_key by done.
  unfold bind. rewrite He. simpl.
  unfold set_exists_in_storage, update_cache.
  by rewrite (keeps_cache_exists _ _ _ _ _ He).
Qed.

(** C3. When the key is not cached and [exists] answers [False],
    [inventory] stores [False] under the key in [exists_in_storage] and
    leaves the [mtime] and [size] mappings as they were: neither has an
    entry for the key afterwards that it did not have before. *)
Theorem inventory_missing_object retries self st st1 :
  IOCache.exists_in_storage (cache st) !! cache_key self = None ->
  exists_ retries self st = (Ok false, st1) ->
  exists st',
    inventory retries self st = (Ok tt, st') /\
    IOCache.exists_in_storage (cache st') !! cache_key self = Some false /\
    IOCache.mtime (cache st') = IOCache.mtime (cache st) /\
    IOCache.size (cache st') = IOCache.size (cache st) /\
    cache st' =
    IOCache.mk
      (<[cache_key self := false]> (IOCache.exists_in_storage (cache st)))
      (IOCache.mtime (cache st)) (IOCache.size (cache st)).
Proof.
  intros Hk He. eexists. split; [by apply inventory_exists_false|].
  simpl. by rewrite lookup_insert_eq.
Qed.

(** C5. With no entry for the key, an exception raised by any probing step
    of [inventory] (the existence check, either [stat], the link test, the
    sentinel lookup) is the outcome of [inventory] itself, and whenever
    [inventory] raises the cache is exactly what it was before the call. *)
Theorem inventory_all_or_nothing retries self st :
  IOCache.exists_in_storage (cache st) !! cache_key self = None ->
  (forall e st', inventory retries self st = (Raise e, st') ->
     cache st' = cache st) /\
  (forall e st1, exists_ retries self st = (Raise e, st1) ->
     inventory retries self st = (Raise e, st1)) /\
  (forall st1 e st2,
     exists_ retries self st = (Ok true, st1) ->
     _stat self true st1 = (Raise e, st2) ->
     inventory retries self st = (Raise e, st2)) /\
  (forall st1 s st2 e st3,
     exists_ retries self st = (Ok true, st1) ->
     _stat self true st1 = (Ok s, st2) ->
     Path_is_symlink (query_path self) st2 = (Raise e, st3) ->
     inventory retries self st = (Raise e, st3)) /\
  (forall st1 s st2 st3 e st4,
     exists_ retries self st = (Ok true, st1) ->
     _stat self true st1 = (Ok s, st2) ->
     Path_is_symlink (query_path self) st2 = (Ok true, st3) ->
     _stat self false st3 = (Raise e, st4) ->
     inventory retries self st = (Raise e, st4)) /\
  (forall st1 s st2 l st3 lstat st4 e st5,
     exists_ retries self st = (Ok true, st1) ->
     _stat self true st1 = (Ok s, st2) ->
     Path_is_symlink (query_path self) st2 = (Ok l, st3) ->
     (if l then _stat self false else ret s) st3 = (Ok lstat, st4) ->
     _stat_to_mtime self lstat st4 = (Raise e, st5) ->
     inventory retries self st = (Raise e, st5)).
Proof.
  intros Hk. rewrite inventory_fresh_key by done.
  split; [|repeat split].
  - intros e st'. unfold bind.
    destruct (exists_ retries self st) as [[[|]|e0] st1] eqn:E1; simpl.
    + pose proof (keeps_cache_exists _ _ _ _ _ E1) as C1.
      destruct (_stat self true st1) as [[s|e1] st2] eqn:E2.
      * pose proof (keeps_cache_os_stat _ _ _ _ _ E2) as C2.
        destruct (Path_is_symlink (query_path self) st2) as [[l|e2] st3] eqn:E3.
        -- pose proof (keeps_cache_Path_is_symlink _ _ _ _ E3) as C3.
           destruct ((if l then _stat self false else ret s) st3)
             as [[ls|e3] st4] eqn:E4.
           ++ assert (cache st4 = cache st3) as C4.
              { destruct l; [eapply keeps_cache_os_stat, E4|
                             eapply keeps_cache_ret, E4]. }
              destruct (_stat_to_mtime self ls st4) as [[t|e4] st5] eqn:E5.
              ** discriminate.
              ** intros [= <- <-].
                 rewrite (keeps_cache_stat_to_mtime _ _ _ _ _ E5). congruence.
           ++ intros [= <- <-].
              destruct l; [|discriminate].
              rewrite (keeps_cache_os_stat _ _ _ _ _ E4). congruence.
        -- intros [= <- <-].
           rewrite (keeps_cache_Path_is_symlink _ _ _ _ E3). congruence.
      * intros [= <- <-]. rewrite (keeps_cache_os_stat _ _ _ _ _ E2). done.
    + discriminate.
    + intros [= <- <-]. eapply keeps_cache_exists, E1.
  - intros e st1 E1. unfold bind. by rewrite E1.
  - intros st1 e st2 E1 E2. unfold bind. rewrite E1. simpl. by rewrite E2.
  - intros st1 s st2 e st3 E1 E2 E3. unfold bind. rewrite E1. simpl.
    rewrite E2. by rewrite E3.
  - intros st1 s st2 st3 e st4 E1 E2 E3 E4. unfold bind. rewrite E1. simpl.
    rewrite E2, E3. by rewrite E4.
  - intros st1 s st2 l st3 lstat st4 e st5 E1 E2 E3 E4 E5. unfold bind.
    rewrite E1. simpl. rewrite E2, E3, E4. by rewrite E5.
Qed.

Lemma fs_stat_to_mtime_ok r c self stat :
  exists t, fs_stat_to_mtime r c self stat = Ok t.
Proof.
  unfold fs_stat_to_mtime.
  destruct (fs_is_dir r c (query_path self)); simpl; [|by eexists].
  destruct (fs_exists r c (_timestamp_path self)) eqn:E; [|by eexists].
  apply fs_exists_lstat in E as [l ->]. by eexists.
Qed.

Lemma inventory_records_key retries self st st' :
  inventory retries self st = (Ok tt, st') ->
  is_Some (IOCache.exists_in_storage (cache st') !! cache_key self).
Proof.
  destruct (IOCache.exists_in_storage (cache st) !! cache_key self)
    as [b|] eqn:Hk.
  - unfold inventory, bind, get_cache, contains. rewrite Hk.
    intros [= <-]. by rewrite Hk.
  - rewrite inventory_fresh_key by done. unfold bind.
    destruct (exists_ retries self st) as [[[|]|e0] st1]; simpl;
      [|intros [= <-]; simpl; by rewrite lookup_insert_eq|done].
    destruct (_stat self true st1) as [[s|e1] st2]; [|done].
    destruct (Path_is_symlink (query_path self) st2) as [[l|e2] st3]; [|done].
    destruct ((if l then _stat self false else ret s) st3)
      as [[ls|e3] st4]; [|done].
    destruct (_stat_to_mtime self ls st4) as [[t|e4] st5]; [|done].
    simpl. intros [= <-]. simpl. by rewrite lookup_insert_eq.
Qed.

(** Two calls in a row: the second one finds the key and changes
    nothing. *)
Lemma inventory_idempotent retries self st st' :
  inventory retries self st = (Ok tt, st') ->
  inventory retries self st' = (Ok tt, st').
Proof.
  intros H. destruct (inventory_records_key _ _ _ _ H) as [b Hb].
  unfold inventory, bind, get_cache, contains. by rewrite Hb.
Qed.

(** C4, as the code has it.  For an object that exists and is not yet
    cached, [inventory] writes the size of the [stat] that follows links,
    and hands [_stat_to_mtime] the [lstat] when [query_path] is a link and
    that same following [stat] when it is not.  The time written is the
    [st_mtime] of that source unless [query_path] is a directory holding a
    sentinel, in which case it is the sentinel's. *)
Theorem inventory_symlink_sources retries self st s l :
  faults st = [] ->
  IOCache.exists_in_storage (cache st) !! cache_key self = None ->
  fs_stat (root st) (cwd st) true (query_path self) = inr s ->
  fs_stat (root st) (cwd st) false (query_path self) = inr l ->
  let source := if is_S_IFLNK l then l else s in
  exists t evs,
    fs_stat_to_mtime (root st) (cwd st) self source = Ok t /\
    (fs_is_dir (root st) (cwd st) (query_path self) &&
     fs_exists (root st) (cwd st) (_timestamp_path self) = false ->
     t = st_mtime source) /\
    inventory retries self st =
    (Ok tt,
     set_cache
       (IOCache.mk
          (<[cache_key self := true]> (IOCache.exists_in_storage (cache st)))
          (<[cache_key self := mk_Mtime None None (Some t)]>
             (IOCache.mtime (cache st)))
          (<[cache_key self := st_size s]> (IOCache.size (cache st))))
       (logs evs st)).
Proof.
  intros Hq Hk Hs Hl source.
  destruct (fs_stat_to_mtime_ok (root st) (cwd st) self source) as [t Ht].
  exists t.
  assert (fs_is_dir (root st) (cwd st) (query_path self) &&
          fs_exists (root st) (cwd st) (_timestamp_path self) = false ->
          t = st_mtime source) as Hplain.
  { intros Hn. unfold fs_stat_to_mtime in Ht. rewrite Hn in Ht. congruence. }
  rewrite inventory_fresh_key by done. unfold bind.
  destruct (exists_quiet retries self st Hq) as [ev1 ->].
  unfold fs_exists. rewrite Hs. simpl.
  unfold _stat. rewrite os_stat_quiet by done. simpl. rewrite Hs. simpl.
  rewrite Path_is_symlink_quiet by done. simpl.
  unfold fs_is_symlink. rewrite Hl.
  subst source. destruct (is_S_IFLNK l).
  - rewrite os_stat_quiet by done. simpl. rewrite Hl. simpl.
    match goal with |- context [_stat_to_mtime self l ?st'] =>
      destruct (_stat_to_mtime_quiet self l st') as [ev2 ->]; [done|] end.
    simpl. rewrite Ht. simpl.
    eexists. split; [done|]. split; [done|].
    unfold set_mtime, set_size, set_exists_in_storage, update_cache. simpl.
    rewrite !logs_logs. reflexivity.
  - unfold ret.
    match goal with |- context [_stat_to_mtime self s ?st'] =>
      destruct (_stat_to_mtime_quiet self s st') as [ev2 ->]; [done|] end.
    simpl. rewrite Ht. simpl.
    eexists. split; [done|]. split; [done|].
    unfold set_mtime, set_size, set_exists_in_storage, update_cache. simpl.
    rewrite !logs_logs. reflexivity.
Qed.

(** C10. For a dangling link (an [lstat] sees the link, a [stat] through it
    fails) that is not yet cached, [exists] answers [False], and
    [inventory] stores [False] under the key and leaves the [mtime] and
    [size] mappings as they were, although [os.stat] without following
    links succeeds on the same path. *)
Theorem inventory_dangling_symlink retries self st :
  faults st = [] ->
  IOCache.exists_in_storage (cache st) !! cache_key self = None ->
  dangling_symlink (root st) (cwd st) (query_path self) ->
  exists evs l,
    exists_ retries self st = (Ok false, logs evs st) /\
    fst (_stat self false st) = Ok l /\ is_S_IFLNK l = true /\
    inventory retries self st =
    (Ok tt,
     set_cache
       (IOCache.mk
          (<[cache_key self := false]> (IOCache.exists_in_storage (cache st)))
          (IOCache.mtime (cache st)) (IOCache.size (cache st)))
       (logs evs st)).
Proof.
  intros Hq Hk [(l & Hl & Hlnk) (e & He)].
  destruct (exists_quiet retries self st Hq) as [evs Hex].
  unfold fs_exists in Hex. rewrite He in Hex.
  exists evs, l. split; [done|]. split; [|split; [done|]].
  - unfold _stat. rewrite os_stat_quiet by done. simpl. by rewrite Hl.
  - by rewrite (inventory_exists_false _ _ _ _ Hk Hex).
Qed.

(** ** The modification time *)

(** C1, as the code has it.  Without faults: when [query_path] is a
    directory ([Path.is_dir], which follows links) and the sentinel
    [.snakemake_timestamp] inside it exists ([Path.exists], which follows
    links too), [mtime] returns the [st_mtime] of an [lstat] of the
    sentinel; in every other case it returns the [st_mtime] of an [lstat]
    of [query_path], or raises that call's error. *)
Theorem mtime_sentinel_rule retries self st :
  faults st = [] ->
  (fs_is_dir (root st) (cwd st) (query_path self) = true ->
   fs_exists (root st) (cwd st) (_timestamp_path self) = true ->
   exists s,
     fs_stat (root st) (cwd st) false (_timestamp_path self) = inr s /\
     fst (mtime retries self st) = Ok (st_mtime s)) /\
  (fs_is_dir (root st) (cwd st) (query_path self) &&
   fs_exists (root st) (cwd st) (_timestamp_path self) = false ->
   fst (mtime retries self st) =
   stat_mtime (fs_stat (root st) (cwd st) false (query_path self))).
Proof.
  intros Hq. destruct (mtime_quiet retries self st Hq) as [evs ->]. simpl.
  split.
  - intros Hd Hx.
    destruct (fs_exists_lstat _ _ _ (fs_is_dir_exists _ _ _ Hd)) as [l ->].
    destruct (fs_exists_lstat _ _ _ Hx) as [s Hs].
    exists s. split; [done|].
    unfold fs_stat_to_mtime. by rewrite Hd, Hx, Hs.
  - intros Hn.
    destruct (fs_stat (root st) (cwd st) false (query_path self)); [done|].
    unfold fs_stat_to_mtime. by rewrite Hn.
Qed.

(** ** Transfers *)

Lemma WorkflowError_unbound : name_defined module_globals "WorkflowError" = false.
Proof. reflexivity. Qed.

Lemma get_constant_prefix_unbound :
  name_defined module_globals "get_constant_prefix" = false.
Proof. reflexivity. Qed.

Lemma _run_cmd_quiet G cmd :
  quiet_run (_run_cmd G cmd)
    (fun st =>
       let r := run_result st cmd in
       if returncode r =? 0 then Ok tt
       else if name_defined G "WorkflowError"
            then Raise (WorkflowError (stdout r))
            else Raise (NameError "WorkflowError")).
Proof.
  intros st Hq. unfold _run_cmd, try_except, bind, subprocess_run, bind.
  rewrite syscall_quiet by done. simpl.
  destruct (returncode (run_result st cmd) =? 0); simpl; [by eexists|].
  unfold load_name. destruct (name_defined G "WorkflowError"); by eexists.
Qed.

Lemma retrieve_object_quiet retries G get_rsync_command self :
  let cmd := get_rsync_command (path_str (query_path self))
               (path_str (local_path self)) ["-av"] in
  quiet_run (retrieve_object retries G get_rsync_command self)
    (fun st =>
       let r := run_result st cmd in
       if returncode r =? 0 then Ok tt
       else if name_defined G "WorkflowError"
            then Raise (WorkflowError (stdout r))
            else Raise (NameError "WorkflowError")).
Proof.
  intros cmd. unfold retrieve_object, retry_decorator.
  apply retry_loop_quiet; [done|]. apply _run_cmd_quiet.
Qed.

(** What the handler of [_run_cmd] is written to do, and does once
    [WorkflowError] is a name in scope: the captured output becomes the
    message of the error. *)
Lemma retrieve_object_with_import retries G get_rsync_command self st :
  name_defined G "WorkflowError" = true ->
  faults st = [] ->
  let r := run_result st (get_rsync_command (path_str (query_path self))
                            (path_str (local_path self)) ["-av"]) in
  returncode r <> 0 ->
  exists evs,
    retrieve_object retries G get_rsync_command self st =
    (Raise (WorkflowError (stdout r)), logs evs st).
Proof.
  intros HG Hq r Hr.
  destruct (retrieve_object_quiet retries G get_rsync_command self st Hq)
    as [evs ->].
  exists evs. simpl. fold r. rewrite HG.
  by destruct (Z.eqb_spec (returncode r) 0).
Qed.

(** C6, on the module as it is.  When the command exits with a nonzero
    status, [retrieve_object] raises [NameError] for the name
    [WorkflowError], which the module never binds; the message of that
    exception is the same whatever the command printed. *)
Theorem retrieve_object_nonzero_exit retries get_rsync_command self st :
  faults st = [] ->
  returncode (run_result st (get_rsync_command (path_str (query_path self))
                               (path_str (local_path self)) ["-av"])) <> 0 ->
  exists evs,
    retrieve_object retries module_globals get_rsync_command self st =
    (Raise (NameError "WorkflowError"), logs evs st) /\
    exn_message (NameError "WorkflowError") =
    "name 'WorkflowError' is not defined".
Proof.
  intros Hq Hr.
  destruct (retrieve_object_quiet retries module_globals get_rsync_command
              self st Hq) as [evs ->].
  exists evs. cbv beta zeta. rewrite WorkflowError_unbound.
  split; [|done].
  by destruct (Z.eqb_spec
    (returncode (run_result st (get_rsync_command (path_str (query_path self))
                                  (path_str (local_path self)) ["-av"]))) 0).
Qed.

Lemma retry_loop_ret {A} (a : A) n st : retry_loop n (ret a) st = (Ok a, st).
Proof. by destruct n. Qed.

(** C7, on the module as it is.  [store_object] and [remove] return
    without doing anything: the state, and with it the call log, is what it
    was, so no command is run and nothing is pushed or deleted. *)
Theorem store_and_remove_do_nothing retries self st :
  store_object retries self st = (Ok tt, st) /\
  remove retries self st = (Ok tt, st).
Proof.
  unfold store_object, remove, retry_decorator.
  by rewrite !retry_loop_ret.
Qed.

(** ** Candidate matches *)

Lemma retry_loop_raise {A} e n st : retry_loop n (@raise A e) st = (Raise e, st).
Proof. revert st. induction n as [|k IH]; intros st; simpl; [done|apply IH]. Qed.

Lemma list_candidate_matches_unbound retries get_constant_prefix self st :
  list_candidate_matches retries module_globals get_constant_prefix self st =
  (Raise (NameError "get_constant_prefix"), st).
Proof.
  unfold list_candidate_matches, retry_decorator.
  change (load_name module_globals "get_constant_prefix")
    with (@raise unit (NameError "get_constant_prefix")).
  change (bind (@raise unit (NameError "get_constant_prefix"))
            (fun _ =>
               d <- Path_is_dir (Path_of_str (get_constant_prefix (query self))) ;;
               if d
               then ret (MapStr (Fresh (Path_of_str (get_constant_prefix (query self)))))
               else ret (Tuple [Path_of_str (get_constant_prefix (query self))])))
    with (@raise candidates (NameError "get_constant_prefix")).
  apply retry_loop_raise.
Qed.

Lemma list_candidate_matches_quiet retries G get_constant_prefix self :
  name_defined G "get_constant_prefix" = true ->
  let prefix := Path_of_str (get_constant_prefix (query self)) in
  quiet_run (list_candidate_matches retries G get_constant_prefix self)
    (fun st =>
       Ok (if fs_is_dir (root st) (cwd st) prefix
           then MapStr (Fresh prefix) else Tuple [prefix])).
Proof.
  intros HG prefix. unfold list_candidate_matches, retry_decorator.
  apply retry_loop_quiet; [done|].
  intros st Hq. unfold load_name. rewrite HG. unfold bind at 1, ret at 1.
  fold prefix. unfold bind. rewrite Path_is_dir_quiet by done.
  destruct (fs_is_dir (root st) (cwd st) prefix); by eexists.
Qed.

Lemma iterate_fresh_quiet p st :
  faults st = [] ->
  iterate (MapStr (Fresh p)) st =
  (match fs_rglob (root st) (cwd st) p with
   | inl e => Raise (OSError e)
   | inr ps => Ok (List.map (fun q => CStr (path_str q)) ps, MapStr Exhausted)
   end, logs [EvScandir p] st).
Proof.
  intros Hq. unfold iterate, bind. rewrite syscall_quiet by done.
  by destruct (fs_rglob (root st) (cwd st) p).
Qed.

Lemma fs_is_dir_rglob r c p :
  fs_is_dir r c p = true -> exists ps, fs_rglob r c p = inr ps.
Proof.
  unfold fs_is_dir, fs_stat, fs_rglob.
  destruct (resolve MAXSYMLINKS r true (from_cwd c p)); [discriminate|].
  by eexists.
Qed.

(** C8, on the module as it is.  Every call raises [NameError] for
    [get_constant_prefix], which the module never binds, so no candidate is
    returned.  With the name in scope the body takes the constant prefix of
    the query string as given, and answers the tuple holding that one path
    when it is not a directory, and otherwise an iterator whose pass lists
    what [rglob] finds below it. *)
Theorem list_candidate_matches_name_error retries get_constant_prefix self st :
  list_candidate_matches retries module_globals get_constant_prefix self st =
  (Raise (NameError "get_constant_prefix"), st) /\
  (forall G,
     name_defined G "get_constant_prefix" = true ->
     faults st = [] ->
     let prefix := Path_of_str (get_constant_prefix (query self)) in
     exists evs,
       list_candidate_matches retries G get_constant_prefix self st =
       (Ok (if fs_is_dir (root st) (cwd st) prefix
            then MapStr (Fresh prefix) else Tuple [prefix]), logs evs st) /\
       fst (iterate (Tuple [prefix]) (logs evs st)) =
       Ok ([CPath prefix], Tuple [prefix]) /\
       (fs_is_dir (root st) (cwd st) prefix = true ->
        exists ps,
          fs_rglob (root st) (cwd st) prefix = inr ps /\
          fst (iterate (MapStr (Fresh prefix)) (logs evs st)) =
          Ok (List.map (fun q => CStr (path_str q)) ps, MapStr Exhausted))).
Proof.
  split; [apply list_candidate_matches_unbound|].
  intros G HG Hq prefix.
  destruct (list_candidate_matches_quiet retries G get_constant_prefix self
              HG st Hq) as [evs ->].
  exists evs. fold prefix. split; [done|]. split; [done|].
  intros Hd. destruct (fs_is_dir_rglob _ _ _ Hd) as [ps Hps].
  exists ps. split; [done|].
  rewrite iterate_fresh_quiet by done. simpl. by rewrite Hps.
Qed.

(** C9, on the module as it is.  Every call raises [NameError], so there is
    no returned value to iterate.  With the name in scope and a directory
    for prefix, the value returned is the iterator [map(str, ...)]: a first
    pass yields the entries and leaves it exhausted, and a second pass over
    the same object yields nothing. *)
Theorem list_candidate_matches_single_pass retries get_constant_prefix self st :
  list_candidate_matches retries module_globals get_constant_prefix self st =
  (Raise (NameError "get_constant_prefix"), st) /\
  (forall G,
     name_defined G "get_constant_prefix" = true ->
     faults st = [] ->
     let prefix := Path_of_str (get_constant_prefix (query self)) in
     fs_is_dir (root st) (cwd st) prefix = true ->
     exists v st1 ps v' st2,
       list_candidate_matches retries G get_constant_prefix self st =
       (Ok v, st1) /\
       fs_rglob (root st) (cwd st) prefix = inr ps /\
       iterate v st1 =
       (Ok (List.map (fun q => CStr (path_str q)) ps, v'), st2) /\
       iterate v' st2 = (Ok ([], v'), st2)).
Proof.
  split; [apply list_candidate_matches_unbound|].
  intros G HG Hq prefix Hd.
  destruct (list_candidate_matches_quiet retries G get_constant_prefix self
              HG st Hq) as [evs ->].
  fold prefix. rewrite Hd.
  destruct (fs_is_dir_rglob _ _ _ Hd) as [ps Hps].
  exists (MapStr (Fresh prefix)), (logs evs st), ps, (MapStr Exhausted).
  eexists. split; [done|]. split; [done|].
  rewrite iterate_fresh_quiet by done. simpl. rewrite Hps. done.
Qed.

(** ** The claims on the sample tree *)

Example mtime_of_directory_with_sentinel :
  fst (mtime 2 (obj_at "data") sample_state) = Ok 200.
Proof. reflexivity. Qed.

Example mtime_of_plain_directory :
  fst (mtime 2 (obj_at "plain") sample_state) = Ok 300.
Proof. reflexivity. Qed.

Example mtime_of_link_is_the_link's :
  fst (mtime 2 (obj_at "lnk") sample_state) = Ok 500.
Proof. reflexivity. Qed.

Example size_of_link_is_the_target's :
  fst (size 2 (obj_at "lnk") sample_state) = Ok 10.
Proof. reflexivity. Qed.

Example mtime_of_missing_path :
  mtime 2 (obj_at "nope") sample_state =
  (Raise (OSError ENOENT),
   logs [EvStat (mk_path true ["nope"]) false;
         EvStat (mk_path true ["nope"]) false;
         EvStat (mk_path true ["nope"]) false] sample_state).
Proof. reflexivity. Qed.

(** A transient failure of the first attempt does not show. *)
Example exists_after_transient_fault :
  fst (exists_ 2 (obj_at "f.txt")
         (mk_state sample_root [] [Some EIO; None] no_output [] IOCache.empty))
  = Ok true.
Proof. reflexivity. Qed.

Example retrieve_object_runs_rsync :
  retrieve_object 2 module_globals sample_rsync_command (obj_at "f.txt")
    sample_state =
  (Ok tt,
   logs [EvRun ["rsync"; "-av"; "/f.txt"; ".snakemake/storage/rsync/f.txt"]]
     sample_state).
Proof. reflexivity. Qed.

Example store_object_runs_nothing :
  calls (snd (store_object 2 (obj_at "f.txt") sample_state)) = [].
Proof. reflexivity. Qed.

Example inventory_of_directory :
  cache (snd (inventory 2 (obj_at "data") sample_state)) =
  IOCache.mk {[ "rsync:///data" := true ]}
             {[ "rsync:///data" := mk_Mtime None None (Some 200) ]}
             {[ "rsync:///data" := 4096 ]}.
Proof. vm_compute. reflexivity. Qed.

(** C1 as worded fails on [stale]: a real directory whose sentinel is a
    link to nothing.  An [lstat] sees the sentinel (its own time is 800),
    but [Path.exists] follows the link and answers [False], so [mtime]
    returns the directory's 700. *)
Lemma mtime_dangling_sentinel :
  fs_is_dir sample_root [] (query_path (obj_at "stale")) = true /\
  fs_stat sample_root [] false (_timestamp_path (obj_at "stale")) =
    inr (mk_stat S_IFLNK 7 800) /\
  mtime_as_worded sample_root [] (obj_at "stale") = Ok 800 /\
  fst (mtime 2 (obj_at "stale") sample_state) = Ok 700 /\
  fst (mtime 2 (obj_at "stale") sample_state) <>
    mtime_as_worded sample_root [] (obj_at "stale").
Proof.
  repeat split; try reflexivity.
  vm_compute. discriminate.
Qed.

(** C4 as worded fails on [dlnk], a link to a directory that holds a
    sentinel: the link's own time is 900, the time written is the
    sentinel's 200. *)
Lemma inventory_sentinel_behind_link :
  fs_exists sample_root [] (query_path (obj_at "dlnk")) = true /\
  fs_is_symlink sample_root [] (query_path (obj_at "dlnk")) = true /\
  cached_mtime_as_worded sample_root [] (obj_at "dlnk") =
    Some (mk_Mtime None None (Some 900)) /\
  IOCache.mtime (cache (snd (inventory 2 (obj_at "dlnk") sample_state)))
    !! cache_key (obj_at "dlnk") = Some (mk_Mtime None None (Some 200)) /\
  IOCache.mtime (cache (snd (inventory 2 (obj_at "dlnk") sample_state)))
    !! cache_key (obj_at "dlnk") <>
  cached_mtime_as_worded sample_root [] (obj_at "dlnk").
Proof.
  repeat split; try (vm_compute; reflexivity).
  vm_compute. discriminate.
Qed.

Lemma mtime_sentinel_rule_data :
  faults sample_state = [] /\
  (exists s,
     fs_stat sample_root [] false (_timestamp_path (obj_at "data")) = inr s /\
     fst (mtime 2 (obj_at "data") sample_state) = Ok (st_mtime s)) /\
  fst (mtime 2 (obj_at "lnk") sample_state) =
    stat_mtime (fs_stat sample_root [] false (query_path (obj_at "lnk"))).
Proof.
  split; [reflexivity|]. split.
  - apply (proj1 (mtime_sentinel_rule 2 (obj_at "data") sample_state eq_refl));
      reflexivity.
  - apply (proj2 (mtime_sentinel_rule 2 (obj_at "lnk") sample_state eq_refl)).
    reflexivity.
Defined.

Lemma inventory_cached_key_noop_f :
  inventory 2 (obj_at "f.txt") cached_state = (Ok tt, cached_state).
Proof.
  apply (inventory_cached_key_noop 2 (obj_at "f.txt") cached_state false).
  vm_compute. reflexivity.
Defined.

Lemma inventory_missing_object_nope :
  exists st',
    inventory 2 (obj_at "nope") sample_state = (Ok tt, st') /\
    IOCache.exists_in_storage (cache st') !! cache_key (obj_at "nope") =
      Some false /\
    IOCache.mtime (cache st') = ∅ /\
    IOCache.size (cache st') = ∅ /\
    cache st' =
    IOCache.mk (<[cache_key (obj_at "nope") := false]> ∅) ∅ ∅.
Proof.
  apply (inventory_missing_object 2 (obj_at "nope") sample_state
           (snd (exists_ 2 (obj_at "nope") sample_state))).
  - vm_compute. reflexivity.
  - vm_compute. reflexivity.
Defined.

Lemma inventory_symlink_sources_lnk :
  exists t evs,
    fs_stat_to_mtime sample_root [] (obj_at "lnk") (mk_stat S_IFLNK 5 500) = Ok t /\
    (fs_is_dir sample_root [] (query_path (obj_at "lnk")) &&
     fs_exists sample_root [] (_timestamp_path (obj_at "lnk")) = false ->
     t = 500) /\
    inventory 2 (obj_at "lnk") sample_state =
    (Ok tt,
     set_cache
       (IOCache.mk
          (<[cache_key (obj_at "lnk") := true]> ∅)
          (<[cache_key (obj_at "lnk") := mk_Mtime None None (Some t)]> ∅)
          (<[cache_key (obj_at "lnk") := 10]> ∅))
       (logs evs sample_state)).
Proof.
  apply (inventory_symlink_sources 2 (obj_at "lnk") sample_state
           (mk_stat S_IFREG 10 400) (mk_stat S_IFLNK 5 500));
    vm_compute; reflexivity.
Defined.

Lemma inventory_all_or_nothing_eio :
  inventory 2 (obj_at "f.txt") faulty_state =
    (Raise (OSError EIO),
     snd (_stat (obj_at "f.txt") true
            (snd (exists_ 2 (obj_at "f.txt") faulty_state)))) /\
  cache (snd (inventory 2 (obj_at "f.txt") faulty_state)) = cache faulty_state.
Proof.
  destruct (inventory_all_or_nothing 2 (obj_at "f.txt") faulty_state)
    as (Hcache & _ & Hstat & _).
  - vm_compute. reflexivity.
  - assert (inventory 2 (obj_at "f.txt") faulty_state =
            (Raise (OSError EIO),
             snd (_stat (obj_at "f.txt") true
                    (snd (exists_ 2 (obj_at "f.txt") faulty_state))))) as H.
    { apply (Hstat (snd (exists_ 2 (obj_at "f.txt") faulty_state))).
      - vm_compute. reflexivity.
      - vm_compute. reflexivity. }
    split; [exact H|].
    rewrite H. exact (Hcache _ _ H).
Defined.

Lemma inventory_dangling_symlink_sample :
  exists evs l,
    exists_ 2 (obj_at "dangling") sample_state = (Ok false, logs evs sample_state) /\
    fst (_stat (obj_at "dangling") false sample_state) = Ok l /\
    is_S_IFLNK l = true /\
    inventory 2 (obj_at "dangling") sample_state =
    (Ok tt,
     set_cache
       (IOCache.mk (<[cache_key (obj_at "dangling") := false]> ∅) ∅ ∅)
       (logs evs sample_state)).
Proof.
  apply (inventory_dangling_symlink 2 (obj_at "dangling") sample_state).
  - reflexivity.
  - vm_compute. reflexivity.
  - split.
    + exists (mk_stat S_IFLNK 7 600). split; reflexivity.
    + exists ENOENT. reflexivity.
Defined.

Lemma retrieve_object_nonzero_exit_23 :
  exists evs,
    retrieve_object 2 module_globals sample_rsync_command (obj_at "f.txt")
      failing_state =
    (Raise (NameError "WorkflowError"), logs evs failing_state) /\
    exn_message (NameError "WorkflowError") =
    "name 'WorkflowError' is not defined".
Proof.
  apply (retrieve_object_nonzero_exit 2 sample_rsync_command (obj_at "f.txt")
           failing_state).
  - reflexivity.
  - vm_compute. discriminate.
Defined.

(** The message of the exception raised does not hold the output of the
    failed command. *)
Lemma retrieve_object_loses_output :
  fst (retrieve_object 2 module_globals sample_rsync_command (obj_at "f.txt")
         failing_state) = Raise (NameError "WorkflowError") /\
  stdout (run_result failing_state
            (sample_rsync_command "/f.txt" ".snakemake/storage/rsync/f.txt"
               ["-av"])) = rsync_failure /\
  contains_text rsync_failure (exn_message (NameError "WorkflowError")) = false.
Proof. repeat split; vm_compute; reflexivity. Qed.

Lemma list_candidate_matches_name_error_results :
  exists evs,
    list_candidate_matches 2 ("get_constant_prefix" :: module_globals)
      before_brace wildcard_obj sample_state =
    (Ok (MapStr (Fresh (mk_path false ["rsync:"; "results"]))),
     logs evs sample_state) /\
    fst (iterate (MapStr (Fresh (mk_path false ["rsync:"; "results"])))
           (logs evs sample_state)) =
    Ok ([CStr "rsync:/results/x.txt"; CStr "rsync:/results/y.txt"],
        MapStr Exhausted).
Proof.
  destruct (proj2 (list_candidate_matches_name_error 2 before_brace
                     wildcard_obj sample_state)
              ("get_constant_prefix" :: module_globals) eq_refl eq_refl)
    as (evs & H1 & _ & H3).
  exists evs. split; [exact H1|].
  destruct (H3 eq_refl) as (ps & Hps & Hit).
  vm_compute in Hps. injection Hps as <-. exact Hit.
Defined.

Lemma list_candidate_matches_single_pass_results :
  exists v st1 v' st2,
    list_candidate_matches 2 ("get_constant_prefix" :: module_globals)
      before_brace wildcard_obj sample_state = (Ok v, st1) /\
    iterate v st1 =
    (Ok ([CStr "rsync:/results/x.txt"; CStr "rsync:/results/y.txt"], v'), st2) /\
    iterate v' st2 = (Ok ([], v'), st2).
Proof.
  destruct (proj2 (list_candidate_matches_single_pass 2 before_brace
                     wildcard_obj sample_state)
              ("get_constant_prefix" :: module_globals) eq_refl eq_refl eq_refl)
    as (v & st1 & ps & v' & st2 & H1 & Hps & H2 & H3).
  exists v, st1, v', st2. split; [exact H1|]. split; [|exact H3].
  vm_compute in Hps. injection Hps as <-. exact H2.
Defined.

(** ** More on the inventory *)

Lemma inventory_cache_cases retries self st r st' :
  inventory retries self st = (r, st') ->
  cache st' = cache st \/
  (r = Ok tt /\
   cache st' =
   IOCache.mk
     (<[cache_key self := false]> (IOCache.exists_in_storage (cache st)))
     (IOCache.mtime (cache st)) (IOCache.size (cache st))) \/
  (r = Ok tt /\ exists t n,
     cache st' =
     IOCache.mk
       (<[cache_key self := true]> (IOCache.exists_in_storage (cache st)))
       (<[cache_key self := mk_Mtime None None (Some t)]>
          (IOCache.mtime (cache st)))
       (<[cache_key self := n]> (IOCache.size (cache st)))).
Proof.
  destruct (IOCache.exists_in_storage (cache st) !! cache_key self)
    as [b|] eqn:Hk.
  { unfold inventory, bind, get_cache, contains. rewrite Hk.
    intros [= <- <-]. by left. }
  rewrite inventory_fresh_key by done. unfold bind.
  destruct (exists_ retries self st) as [[[|]|e0] st1] eqn:E1; simpl.
  - pose proof (keeps_cache_exists _ _ _ _ _ E1) as C1.
    destruct (_stat self true st1) as [[s|e1] st2] eqn:E2.
    + pose proof (keeps_cache_os_stat _ _ _ _ _ E2) as C2.
      destruct (Path_is_symlink (query_path self) st2) as [[l|e2] st3] eqn:E3.
      * pose proof (keeps_cache_Path_is_symlink _ _ _ _ E3) as C3.
        destruct ((if l then _stat self false else ret s) st3)
          as [[ls|e3] st4] eqn:E4.
        -- assert (cache st4 = cache st3) as C4.
           { destruct l; [eapply keeps_cache_os_stat, E4|
                          eapply keeps_cache_ret, E4]. }
           destruct (_stat_to_mtime self ls st4) as [[t|e4] st5] eqn:E5.
           ++ pose proof (keeps_cache_stat_to_mtime _ _ _ _ _ E5) as C5.
              simpl. intros [= <- <-]. right; right. split; [done|].
              exists t, (st_size s). simpl. congruence.
           ++ intros [= <- <-]. left.
              rewrite (keeps_cache_stat_to_mtime _ _ _ _ _ E5). congruence.
        -- intros [= <- <-]. left.
           destruct l; [|discriminate].
           rewrite (keeps_cache_os_stat _ _ _ _ _ E4). congruence.
      * intros [= <- <-]. left.
        rewrite (keeps_cache_Path_is_symlink _ _ _ _ E3). congruence.
    + intros [= <- <-]. left.
      rewrite (keeps_cache_os_stat _ _ _ _ _ E2). done.
  - intros [= <- <-]. right; left. split; [done|]. simpl.
    by rewrite (keeps_cache_exists _ _ _ _ _ E1).
  - intros [= <- <-]. left. eapply keeps_cache_exists, E1.
Qed.

(** X1. Whatever the faults and whatever the outcome, [inventory] leaves
    the entries of every key other than the object's own as they were, in
    all three mappings. *)
Theorem inventory_other_keys retries self st :
  same_elsewhere (cache_key self) (cache st)
    (cache (snd (inventory retries self st))).
Proof.
  destruct (inventory retries self st) as [r st'] eqn:H. simpl.
  intros k Hk.
  destruct (inventory_cache_cases _ _ _ _ _ H)
    as [-> | [[_ ->] | [_ (t & n & ->)]]]; simpl.
  - done.
  - by rewrite lookup_insert_ne.
  - by rewrite !lookup_insert_ne.
Qed.

(** X2. [inventory] keeps the cache well formed: if every key recorded as
    existing had a modification time and a size before the call, the same
    holds after it, whatever the faults and the outcome. *)
Theorem inventory_keeps_cache_wf retries self st :
  cache_wf (cache st) ->
  cache_wf (cache (snd (inventory retries self st))).
Proof.
  intros Hwf. destruct (inventory retries self st) as [r st'] eqn:H. simpl.
  intros k.
  destruct (inventory_cache_cases _ _ _ _ _ H)
    as [-> | [[_ ->] | [_ (t & n & ->)]]]; simpl.
  - apply Hwf.
  - destruct (decide (cache_key self = k)) as [->|Hne].
    + by rewrite lookup_insert_eq.
    + rewrite lookup_insert_ne by done. apply Hwf.
  - destruct (decide (cache_key self = k)) as [->|Hne].
    + intros _. rewrite !lookup_insert_eq. by split.
    + rewrite !lookup_insert_ne by done. apply Hwf.
Qed.

Lemma cache_wf_empty : cache_wf IOCache.empty.
Proof. intros k H. simpl in H. by rewrite lookup_empty in H. Qed.

Lemma inventory_keeps_cache_wf_data :
  cache_wf (cache sample_state) /\
  cache_wf (cache (snd (inventory 2 (obj_at "data") sample_state))).
Proof.
  split; [apply cache_wf_empty|].
  apply (inventory_keeps_cache_wf 2 (obj_at "data") sample_state).
  apply cache_wf_empty.
Defined.

(** ** Runs that only probe *)

Section Preserves.

Variable R : State -> State -> Prop.
Hypothesis R_refl : forall st, R st st.
Hypothesis R_trans : forall a b c, R a b -> R b c -> R a c.

Lemma preserves_ret {A} (a : A) : preserves R (ret a).
Proof. intros st r st' [= <- <-]. apply R_refl. Qed.

Lemma preserves_raise {A} e : preserves R (@raise A e).
Proof. intros st r st' [= <- <-]. apply R_refl. Qed.

Lemma preserves_bind {A B} (m : M A) (k : A -> M B) :
  preserves R m -> (forall a, preserves R (k a)) -> preserves R (bind m k).
Proof.
  intros Hm Hk st r st'. unfold bind.
  destruct (m st) as [[a|e] st1] eqn:E.
  - intros H. eapply R_trans; [eapply Hm, E|eapply Hk, H].
  - intros [= <- <-]. eapply Hm, E.
Qed.

Lemma preserves_try {A} (m : M A) h :
  preserves R m -> (forall e k, h e = Some k -> preserves R k) ->
  preserves R (try_except m h).
Proof.
  intros Hm Hh st r st'. unfold try_except.
  destruct (m st) as [[a|e] st1] eqn:E.
  - intros [= <- <-]. eapply Hm, E.
  - destruct (h e) as [k|] eqn:Eh.
    + intros H. eapply R_trans; [eapply Hm, E|eapply Hh, H; exact Eh].
    + intros [= <- <-]. eapply Hm, E.
Qed.

Lemma preserves_retry {A} (f : M A) n :
  preserves R f -> preserves R (retry_loop n f).
Proof.
  intros Hf. induction n as [|k IH]; intros st r st'; simpl;
    destruct (f st) as [[a|e] st1] eqn:E.
  - intros [= <- <-]. eapply Hf, E.
  - intros [= <- <-]. eapply Hf, E.
  - intros [= <- <-]. eapply Hf, E.
  - intros H. eapply R_trans; [eapply Hf, E|eapply IH, H].
Qed.

Lemma preserves_syscall {A} ev (real : State -> errno + A) :
  (forall st, R st (log ev st)) ->
  (forall st o fl, faults st = o :: fl -> R st (set_faults fl (log ev st))) ->
  preserves R (syscall ev real).
Proof.
  intros Hlog Hfl st r st'. unfold syscall.
  destruct (faults st) as [|[e|] fl] eqn:E; intros [= <- <-];
    eauto.
Qed.

Lemma preserves_false_if_ignored e k :
  false_if_ignored e = Some k -> preserves R k.
Proof.
  destruct e as [n| | |]; simpl; try discriminate.
  destruct (ignore_error n); [|discriminate].
  intros [= <-]. apply preserves_ret.
Qed.

End Preserves.

Lemma probe_step_refl st : probe_step st st.
Proof.
  repeat split; try done.
  - exists []. by rewrite app_nil_r.
  - by exists [].
Qed.

Lemma probe_step_trans a b c : probe_step a b -> probe_step b c -> probe_step a c.
Proof.
  intros (H1 & H2 & H3 & (e1 & H4 & H5) & (u1 & H6))
         (G1 & G2 & G3 & (e2 & G4 & G5) & (u2 & G6)).
  repeat split; try congruence.
  - exists (e1 ++ e2)%list. rewrite G4, H4, app_assoc. split; [done|].
    rewrite forallb_app. by rewrite H5, G5.
  - exists (u1 ++ u2)%list. by rewrite H6, G6, app_assoc.
Qed.

Lemma probe_step_set_cache c st : probe_step st (set_cache c st).
Proof.
  repeat split; try done.
  - exists []. simpl. by rewrite app_nil_r.
  - by exists [].
Qed.

Lemma probe_os_stat p follow : preserves probe_step (os_stat p follow).
Proof.
  apply preserves_syscall.
  - intros st. repeat split; try done.
    + by exists [EvStat p follow].
    + by exists [].
  - intros st o fl E. repeat split; try done.
    + by exists [EvStat p follow].
    + exists [o]. by rewrite E.
Qed.

Lemma probe_Path_exists p : preserves probe_step (Path_exists p).
Proof.
  apply preserves_try;
    [apply probe_step_trans| |
     intros e k; apply preserves_false_if_ignored, probe_step_refl].
  apply preserves_bind; [apply probe_step_trans|apply probe_os_stat|].
  intros; apply preserves_ret, probe_step_refl.
Qed.

Lemma probe_Path_is_dir p : preserves probe_step (Path_is_dir p).
Proof.
  apply preserves_try;
    [apply probe_step_trans| |
     intros e k; apply preserves_false_if_ignored, probe_step_refl].
  apply preserves_bind; [apply probe_step_trans|apply probe_os_stat|].
  intros; apply preserves_ret, probe_step_refl.
Qed.

Lemma probe_Path_is_symlink p : preserves probe_step (Path_is_symlink p).
Proof.
  apply preserves_try;
    [apply probe_step_trans| |
     intros e k; apply preserves_false_if_ignored, probe_step_refl].
  apply preserves_bind; [apply probe_step_trans|apply probe_os_stat|].
  intros; apply preserves_ret, probe_step_refl.
Qed.

Lemma probe_stat_to_mtime self stat : preserves probe_step (_stat_to_mtime self stat).
Proof.
  unfold _stat_to_mtime.
  apply preserves_bind; [apply probe_step_trans|apply probe_Path_is_dir|].
  intros [|]; [|apply preserves_ret, probe_step_refl].
  apply preserves_bind; [apply probe_step_trans|apply probe_Path_exists|].
  intros [|]; [|apply preserves_ret, probe_step_refl].
  apply preserves_bind; [apply probe_step_trans|apply probe_os_stat|].
  intros; apply preserves_ret, probe_step_refl.
Qed.

Lemma probe_update_cache f : preserves probe_step (update_cache f).
Proof. intros st r st' [= <- <-]. apply probe_step_set_cache. Qed.

Lemma probe_inventory retries self : preserves probe_step (inventory retries self).
Proof.
  unfold inventory.
  apply preserves_bind; [apply probe_step_trans| |].
  { intros st r st' [= <- <-]. apply probe_step_refl. }
  intros c. destruct (contains _ _); [apply preserves_ret, probe_step_refl|].
  apply preserves_bind; [apply probe_step_trans| |].
  { apply preserves_retry; [apply probe_step_trans|apply probe_Path_exists]. }
  intros [|]; simpl; [|apply probe_update_cache].
  apply preserves_bind; [apply probe_step_trans|apply probe_os_stat|].
  intros s.
  apply preserves_bind; [apply probe_step_trans|apply probe_Path_is_symlink|].
  intros l.
  apply preserves_bind; [apply probe_step_trans| |].
  { destruct l; [apply probe_os_stat|apply preserves_ret, probe_step_refl]. }
  intros ls.
  apply preserves_bind; [apply probe_step_trans|apply probe_stat_to_mtime|].
  intros t.
  apply preserves_bind; [apply probe_step_trans|apply probe_update_cache|].
  intros _.
  apply preserves_bind; [apply probe_step_trans|apply probe_update_cache|].
  intros _. apply probe_update_cache.
Qed.

(** X3. [inventory] only looks: whatever the faults and the outcome, the
    file tree, the working directory and the commands' results are what
    they were, and every call it adds to the log is an [os.stat]; it starts
    no command and lists no directory. *)
Theorem inventory_only_stats retries self st :
  probe_step st (snd (inventory retries self st)).
Proof.
  destruct (inventory retries self st) as [r st'] eqn:H.
  eapply probe_inventory, H.
Qed.

(** ** The cache against the probes *)

(** On a path that is not a link, the two kinds of [stat] agree. *)
Lemma walk_not_link deref p :
  forall cur n, walk deref false cur p = inr n ->
  is_S_IFLNK (stat_of n) = false ->
  walk deref true cur p = inr n.
Proof.
  induction p as [|c rest IH]; intros cur n; simpl; [done|].
  destruct cur as [? ?|? ? es|? ? ?]; try discriminate.
  destruct (child c es) as [[? ?|? ? ?|? ? tgt]|]; try discriminate.
  - apply IH.
  - apply IH.
  - rewrite andb_false_r.
    destruct (is_nil rest); simpl.
    + intros [= <-]. discriminate.
    + destruct (deref tgt); [discriminate|]. apply IH.
Qed.

Lemma fs_stat_not_link r c p l :
  fs_stat r c false p = inr l -> is_S_IFLNK l = false ->
  fs_stat r c true p = inr l.
Proof.
  unfold fs_stat.
  destruct (resolve MAXSYMLINKS r false (from_cwd c p)) as [|n] eqn:E;
    [discriminate|].
  intros [= <-] Hl. unfold MAXSYMLINKS in *. simpl in E |- *.
  by rewrite (walk_not_link _ _ _ _ E Hl).
Qed.

Lemma size_quiet retries self st :
  faults st = [] ->
  exists evs,
    size retries self st =
    (match fs_stat (root st) (cwd st) true (query_path self) with
     | inl e => Raise (OSError e)
     | inr s => Ok (st_size s)
     end, logs evs st).
Proof.
  intros H. unfold size, retry_decorator.
  apply (retry_loop_quiet _
    (fun st => match fs_stat (root st) (cwd st) true (query_path self) with
               | inl e => Raise (OSError e)
               | inr s => Ok (st_size s)
               end)); [done| |done].
  intros st' H'. unfold bind, _stat. rewrite os_stat_quiet by done.
  destruct (fs_stat (root st') (cwd st') true (query_path self)) as [e|s];
    simpl; by eexists.
Qed.

Lemma inventory_quiet_existing retries self st s l :
  faults st = [] ->
  IOCache.exists_in_storage (cache st) !! cache_key self = None ->
  fs_stat (root st) (cwd st) true (query_path self) = inr s ->
  fs_stat (root st) (cwd st) false (query_path self) = inr l ->
  exists t evs,
    fs_stat_to_mtime (root st) (cwd st) self (if is_S_IFLNK l then l else s)
    = Ok t /\
    inventory retries self st =
    (Ok tt,
     set_cache
       (IOCache.mk
          (<[cache_key self := true]> (IOCache.exists_in_storage (cache st)))
          (<[cache_key self := mk_Mtime None None (Some t)]>
             (IOCache.mtime (cache st)))
          (<[cache_key self := st_size s]> (IOCache.size (cache st))))
       (logs evs st)).
Proof.
  intros Hq Hk Hs Hl.
  destruct (fs_stat_to_mtime_ok (root st) (cwd st) self
              (if is_S_IFLNK l then l else s)) as [t Ht].
  exists t.
  rewrite inventory_fresh_key by done. unfold bind.
  destruct (exists_quiet retries self st Hq) as [ev1 ->].
  unfold fs_exists. rewrite Hs. simpl.
  unfold _stat. rewrite os_stat_quiet by done. simpl. rewrite Hs. simpl.
  rewrite Path_is_symlink_quiet by done. simpl.
  unfold fs_is_symlink. rewrite Hl.
  destruct (is_S_IFLNK l).
  - rewrite os_stat_quiet by done. simpl. rewrite Hl. simpl.
    match goal with |- context [_stat_to_mtime self l ?st'] =>
      destruct (_stat_to_mtime_quiet self l st') as [ev2 ->]; [done|] end.
    simpl. rewrite Ht. simpl.
    eexists. split; [done|].
    unfold set_mtime, set_size, set_exists_in_storage, update_cache. simpl.
    rewrite !logs_logs. reflexivity.
  - unfold ret.
    match goal with |- context [_stat_to_mtime self s ?st'] =>
      destruct (_stat_to_mtime_quiet self s st') as [ev2 ->]; [done|] end.
    simpl. rewrite Ht. simpl.
    eexists. split; [done|].
    unfold set_mtime, set_size, set_exists_in_storage, update_cache. simpl.
    rewrite !logs_logs. reflexivity.
Qed.

(** X4. Without faults, what [inventory] caches for a fresh key is what
    the three probes answer afterwards: the cached existence is the value
    of [exists], and for an object that exists the cached time and size are
    the values of [mtime] and [size]. *)
Theorem inventory_agrees_with_probes retries self st :
  faults st = [] ->
  IOCache.exists_in_storage (cache st) !! cache_key self = None ->
  exists st' b,
    inventory retries self st = (Ok tt, st') /\
    IOCache.exists_in_storage (cache st') !! cache_key self = Some b /\
    fst (exists_ retries self st') = Ok b /\
    (b = true ->
     exists t n,
       IOCache.mtime (cache st') !! cache_key self =
         Some (mk_Mtime None None (Some t)) /\
       fst (mtime retries self st') = Ok t /\
       IOCache.size (cache st') !! cache_key self = Some n /\
       fst (size retries self st') = Ok n).
Proof.
  intros Hq Hk.
  destruct (fs_stat (root st) (cwd st) true (query_path self)) as [e|s] eqn:Hs.
  - destruct (exists_quiet retries self st Hq) as [evs Hex].
    unfold fs_exists in Hex. rewrite Hs in Hex.
    eexists; exists false.
    split; [by apply inventory_exists_false|].
    split; [simpl; by rewrite lookup_insert_eq|].
    split; [|done].
    match goal with |- fst (exists_ _ _ ?st') = _ =>
      destruct (exists_quiet retries self st') as [ev' ->]; [done|] end.
    simpl. unfold fs_exists. by rewrite Hs.
  - destruct (fs_stat_nofollow _ _ _ _ Hs) as [l Hl].
    destruct (inventory_quiet_existing retries self st s l Hq Hk Hs Hl)
      as (t & evs & Ht & ->).
    eexists; exists true. split; [done|].
    split; [simpl; by rewrite lookup_insert_eq|].
    split.
    { match goal with |- fst (exists_ _ _ ?st') = _ =>
        destruct (exists_quiet retries self st') as [ev' ->]; [done|] end.
      simpl. unfold fs_exists. by rewrite Hs. }
    intros _. exists t, (st_size s).
    split; [simpl; by rewrite lookup_insert_eq|].
    split.
    { match goal with |- fst (mtime _ _ ?st') = _ =>
        destruct (mtime_quiet retries self st') as [ev' ->]; [done|] end.
      simpl. rewrite Hl. rewrite <- Ht.
      destruct (is_S_IFLNK l) eqn:El; [done|].
      by rewrite (fs_stat_not_link _ _ _ _ Hl El) in Hs; injection Hs as ->. }
    split; [simpl; by rewrite lookup_insert_eq|].
    match goal with |- fst (size _ _ ?st') = _ =>
      destruct (size_quiet retries self st') as [ev' ->]; [done|] end.
    simpl. by rewrite Hs.
Qed.

Lemma inventory_agrees_with_probes_lnk :
  exists st' b,
    inventory 2 (obj_at "lnk") sample_state = (Ok tt, st') /\
    IOCache.exists_in_storage (cache st') !! cache_key (obj_at "lnk") = Some b /\
    fst (exists_ 2 (obj_at "lnk") st') = Ok b /\
    (b = true ->
     exists t n,
       IOCache.mtime (cache st') !! cache_key (obj_at "lnk") =
         Some (mk_Mtime None None (Some t)) /\
       fst (mtime 2 (obj_at "lnk") st') = Ok t /\
       IOCache.size (cache st') !! cache_key (obj_at "lnk") = Some n /\
       fst (size 2 (obj_at "lnk") st') = Ok n).
Proof.
  apply (inventory_agrees_with_probes 2 (obj_at "lnk") sample_state).
  - reflexivity.
  - vm_compute. reflexivity.
Defined.

(** ** What the probes raise and when *)

Lemma retry_loop_raises {A} (f : M A) (P : exn -> Prop) :
  (forall st e st', f st = (Raise e, st') -> P e) ->
  forall n st e st', retry_loop n f st = (Raise e, st') -> P e.
Proof.
  intros Hf n. induction n as [|k IH]; intros st e st'; simpl;
    destruct (f st) as [[a|e0] st1] eqn:E; try discriminate.
  - intros [= <- <-]. eapply Hf, E.
  - apply IH.
Qed.

Lemma Path_exists_raises p st e st' :
  Path_exists p st = (Raise e, st') ->
  exists n, e = OSError n /\ ignore_error n = false.
Proof.
  unfold Path_exists, try_except, bind, os_stat, syscall.
  destruct (faults st) as [|[n|] fl]; simpl.
  - destruct (fs_stat (root st) (cwd st) true p) as [n|s] eqn:E; simpl;
      [|discriminate].
    by rewrite (fs_stat_errno _ _ _ _ _ E).
  - destruct (ignore_error n) eqn:En; [discriminate|].
    intros [= <- <-]. eauto.
  - destruct (fs_stat (root st) (cwd st) true p) as [n|s] eqn:E; simpl;
      [|discriminate].
    by rewrite (fs_stat_errno _ _ _ _ _ E).
Qed.

(** X5. Whatever faults are scheduled, the only exceptions [exists] lets
    through are [OSError]s whose errno pathlib does not read as absence:
    never ENOENT, ENOTDIR, EBADF or ELOOP. *)
Theorem exists_raises_only_hard_errors retries self st e st' :
  exists_ retries self st = (Raise e, st') ->
  exists n, e = OSError n /\ ignore_error n = false.
Proof.
  unfold exists_, retry_decorator.
  apply (retry_loop_raises _
           (fun e => exists n, e = OSError n /\ ignore_error n = false)).
  intros st0 e0 st0'. apply Path_exists_raises.
Qed.

Lemma exists_raises_only_hard_errors_eacces :
  exists n,
    OSError EACCES = OSError n /\ ignore_error n = false.
Proof.
  apply (exists_raises_only_hard_errors 2 (obj_at "f.txt")
           (mk_state sample_root [] [Some EACCES; Some EACCES; Some EACCES]
              no_output [] IOCache.empty)
           (OSError EACCES)
           (snd (exists_ 2 (obj_at "f.txt")
                   (mk_state sample_root []
                      [Some EACCES; Some EACCES; Some EACCES]
                      no_output [] IOCache.empty)))).
  vm_compute. reflexivity.
Defined.

(** X6. Without faults, [size] returns a value exactly when [exists]
    answers [True]: then it is the [st_size] of the [stat] that follows
    links, and otherwise [size] raises the [OSError] of that [stat]. *)
Theorem size_defined_iff_exists retries self st :
  faults st = [] ->
  exists b,
    fst (exists_ retries self st) = Ok b /\
    (if b
     then exists s,
            fs_stat (root st) (cwd st) true (query_path self) = inr s /\
            fst (size retries self st) = Ok (st_size s)
     else exists n,
            fs_stat (root st) (cwd st) true (query_path self) = inl n /\
            ignore_error n = true /\
            fst (size retries self st) = Raise (OSError n)).
Proof.
  intros Hq.
  destruct (exists_quiet retries self st Hq) as [ev1 ->].
  destruct (size_quiet retries self st Hq) as [ev2 ->]. simpl.
  unfold fs_exists.
  destruct (fs_stat (root st) (cwd st) true (query_path self)) as [n|s] eqn:E.
  - exists false. split; [done|]. exists n.
    split; [done|]. split; [|done]. eapply fs_stat_errno, E.
  - exists true. split; [done|]. by exists s.
Qed.

Lemma size_defined_iff_exists_sample :
  exists b,
    fst (exists_ 2 (obj_at "nope") sample_state) = Ok b /\
    (if b
     then exists s,
            fs_stat sample_root [] true (query_path (obj_at "nope")) = inr s /\
            fst (size 2 (obj_at "nope") sample_state) = Ok (st_size s)
     else exists n,
            fs_stat sample_root [] true (query_path (obj_at "nope")) = inl n /\
            ignore_error n = true /\
            fst (size 2 (obj_at "nope") sample_state) = Raise (OSError n)).
Proof.
  apply (size_defined_iff_exists 2 (obj_at "nope") sample_state).
  reflexivity.
Defined.

(** X7. Without faults, on a dangling link the probes part ways: [exists]
    answers [False] and [size] raises, while [mtime] returns the link's own
    modification time. *)
Theorem probes_on_dangling_symlink retries self st :
  faults st = [] ->
  dangling_symlink (root st) (cwd st) (query_path self) ->
  fst (exists_ retries self st) = Ok false /\
  (exists n, fst (size retries self st) = Raise (OSError n)) /\
  (exists l,
     fs_stat (root st) (cwd st) false (query_path self) = inr l /\
     fst (mtime retries self st) = Ok (st_mtime l)).
Proof.
  intros Hq [(l & Hl & Hlnk) (e & He)].
  destruct (exists_quiet retries self st Hq) as [ev1 ->].
  destruct (size_quiet retries self st Hq) as [ev2 ->].
  destruct (mtime_quiet retries self st Hq) as [ev3 ->]. simpl.
  unfold fs_exists. rewrite He, Hl.
  split; [done|]. split; [by eexists|].
  exists l. split; [done|].
  unfold fs_stat_to_mtime, fs_is_dir. by rewrite He.
Qed.

Lemma probes_on_dangling_symlink_sample :
  fst (exists_ 2 (obj_at "dangling") sample_state) = Ok false /\
  (exists n, fst (size 2 (obj_at "dangling") sample_state) = Raise (OSError n)) /\
  (exists l,
     fs_stat sample_root [] false (query_path (obj_at "dangling")) = inr l /\
     fst (mtime 2 (obj_at "dangling") sample_state) = Ok (st_mtime l)).
Proof.
  apply (probes_on_dangling_symlink 2 (obj_at "dangling") sample_state).
  - reflexivity.
  - split.
    + exists (mk_stat S_IFLNK 7 600). split; reflexivity.
    + exists ENOENT. reflexivity.
Defined.

(** ** Retries *)

Lemma retry_loop_transient {A} (f : M A) (R : State -> outcome A) e :
  (forall st st', root st' = root st -> cwd st' = cwd st ->
                  run_result st' = run_result st -> R st' = R st) ->
  quiet_run f R ->
  (forall st fl, faults st = Some e :: fl ->
     exists st', f st = (Raise (OSError e), st') /\ faults st' = fl /\
                 root st' = root st /\ cwd st' = cwd st /\
                 run_result st' = run_result st) ->
  forall k n st,
    faults st = List.repeat (Some e) k -> (k <= n)%nat ->
    fst (retry_loop n f st) = R st.
Proof.
  intros HR Hq Hf k. induction k as [|k IH]; intros n st Hfl Hle.
  - destruct (retry_loop_quiet f R) with (n := n) (st := st) as [evs ->];
      try done.
    intros evs st0. by apply HR.
  - destruct n as [|n]; [lia|]. simpl in Hfl |- *.
    destruct (Hf _ _ Hfl) as (st' & -> & Hfl' & Hr & Hc & Hp).
    rewrite (IH n st') by (done || lia). by apply HR.
Qed.

Lemma retry_loop_exhausted {A} (f : M A) e :
  (forall st fl, faults st = Some e :: fl ->
     exists st', f st = (Raise (OSError e), st') /\ faults st' = fl /\
                 root st' = root st /\ cwd st' = cwd st /\
                 run_result st' = run_result st) ->
  forall n st fl,
    faults st = (List.repeat (Some e) (S n) ++ fl)%list ->
    exists st', retry_loop n f st = (Raise (OSError e), st') /\
                faults st' = fl.
Proof.
  intros Hf n. induction n as [|n IH]; intros st fl Hfl; simpl in Hfl |- *.
  - destruct (Hf _ _ Hfl) as (st' & -> & Hfl' & _). eauto.
  - destruct (Hf _ _ Hfl) as (st' & -> & Hfl' & _).
    apply (IH st' fl). exact Hfl'.
Qed.

(** Both runs answer the same when the answer only reads fields that are
    the same. *)
Ltac same_fields :=
  let H1 := fresh in let H2 := fresh in let H3 := fresh in
  intros ? ? H1 H2 H3; cbv beta; by rewrite ?H1, ?H2, ?H3.

Lemma syscall_fault {A} ev (real : State -> errno + A) st e fl :
  faults st = Some e :: fl ->
  syscall ev real st = (Raise (OSError e), set_faults fl (log ev st)).
Proof. intros H. unfold syscall. by rewrite H. Qed.

Lemma size_body_fault self e st fl :
  faults st = Some e :: fl ->
  exists st', (s <- _stat self true ;; ret (st_size s)) st =
              (Raise (OSError e), st') /\ faults st' = fl /\
              root st' = root st /\ cwd st' = cwd st /\
              run_result st' = run_result st.
Proof.
  intros H. unfold bind, _stat, os_stat. rewrite (syscall_fault _ _ _ _ _ H).
  by eexists.
Qed.

Lemma mtime_body_fault self e st fl :
  faults st = Some e :: fl ->
  exists st', (s <- _stat self false ;; _stat_to_mtime self s) st =
              (Raise (OSError e), st') /\ faults st' = fl /\
              root st' = root st /\ cwd st' = cwd st /\
              run_result st' = run_result st.
Proof.
  intros H. unfold bind, _stat, os_stat. rewrite (syscall_fault _ _ _ _ _ H).
  by eexists.
Qed.

Lemma Path_exists_fault p e :
  ignore_error e = false ->
  forall st fl,
  faults st = Some e :: fl ->
  exists st', Path_exists p st = (Raise (OSError e), st') /\ faults st' = fl /\
              root st' = root st /\ cwd st' = cwd st /\
              run_result st' = run_result st.
Proof.
  intros He st fl H. unfold Path_exists, try_except, bind, os_stat.
  rewrite (syscall_fault _ _ _ _ _ H). simpl. rewrite He. by eexists.
Qed.

Lemma _run_cmd_fault G cmd e st fl :
  faults st = Some e :: fl ->
  exists st', _run_cmd G cmd st = (Raise (OSError e), st') /\ faults st' = fl /\
              root st' = root st /\ cwd st' = cwd st /\
              run_result st' = run_result st.
Proof.
  intros H. unfold _run_cmd, try_except, bind, subprocess_run, bind.
  rewrite (syscall_fault _ _ _ _ _ H). by eexists.
Qed.

Lemma size_body_quiet self :
  quiet_run (s <- _stat self true ;; ret (st_size s))
    (fun st => match fs_stat (root st) (cwd st) true (query_path self) with
               | inl e => Raise (OSError e)
               | inr s => Ok (st_size s)
               end).
Proof.
  intros st H. unfold bind, _stat. rewrite os_stat_quiet by done.
  destruct (fs_stat (root st) (cwd st) true (query_path self)); by eexists.
Qed.

Lemma mtime_body_quiet self :
  quiet_run (s <- _stat self false ;; _stat_to_mtime self s)
    (fun st => match fs_stat (root st) (cwd st) false (query_path self) with
               | inl e => Raise (OSError e)
               | inr s => fs_stat_to_mtime (root st) (cwd st) self s
               end).
Proof.
  intros st H. unfold bind, _stat. rewrite os_stat_quiet by done.
  destruct (fs_stat (root st) (cwd st) false (query_path self)) as [e|s];
    simpl; [by eexists|].
  destruct (_stat_to_mtime_quiet self s (logs [EvStat (query_path self) false] st))
    as [evs ->]; [done|].
  simpl. rewrite logs_logs. by eexists.
Qed.

Lemma Path_exists_body_quiet p :
  quiet_run (Path_exists p) (fun st => Ok (fs_exists (root st) (cwd st) p)).
Proof. intros st H. rewrite Path_exists_quiet by done. by eexists. Qed.

Lemma size_transient retries self st e k :
  faults st = List.repeat (Some e) k -> (k <= retries)%nat ->
  fst (size retries self st) =
  match fs_stat (root st) (cwd st) true (query_path self) with
  | inl e => Raise (OSError e)
  | inr s => Ok (st_size s)
  end.
Proof.
  intros Hfl Hle. unfold size, retry_decorator.
  apply (retry_loop_transient _
    (fun st => match fs_stat (root st) (cwd st) true (query_path self) with
               | inl e => Raise (OSError e)
               | inr s => Ok (st_size s)
               end) e) with (k := k);
    [same_fields|apply size_body_quiet|apply size_body_fault|done|done].
Qed.

Lemma mtime_transient retries self st e k :
  faults st = List.repeat (Some e) k -> (k <= retries)%nat ->
  fst (mtime retries self st) =
  match fs_stat (root st) (cwd st) false (query_path self) with
  | inl e => Raise (OSError e)
  | inr s => fs_stat_to_mtime (root st) (cwd st) self s
  end.
Proof.
  intros Hfl Hle. unfold mtime, retry_decorator.
  apply (retry_loop_transient _
    (fun st => match fs_stat (root st) (cwd st) false (query_path self) with
               | inl e => Raise (OSError e)
               | inr s => fs_stat_to_mtime (root st) (cwd st) self s
               end) e) with (k := k);
    [same_fields|apply mtime_body_quiet|apply mtime_body_fault|done|done].
Qed.

Lemma exists_transient retries self st e k :
  ignore_error e = false ->
  faults st = List.repeat (Some e) k -> (k <= retries)%nat ->
  fst (exists_ retries self st) =
  Ok (fs_exists (root st) (cwd st) (query_path self)).
Proof.
  intros He Hfl Hle. unfold exists_, retry_decorator.
  apply (retry_loop_transient _
    (fun st => Ok (fs_exists (root st) (cwd st) (query_path self))) e)
    with (k := k);
    [same_fields|apply Path_exists_body_quiet|by apply Path_exists_fault
    |done|done].
Qed.

Lemma retrieve_object_transient retries G get_rsync_command self st e k :
  faults st = List.repeat (Some e) k -> (k <= retries)%nat ->
  fst (retrieve_object retries G get_rsync_command self st) =
  (let r := run_result st
              (get_rsync_command (path_str (query_path self))
                 (path_str (local_path self)) ["-av"]) in
   if returncode r =? 0 then Ok tt
   else if name_defined G "WorkflowError"
        then Raise (WorkflowError (stdout r))
        else Raise (NameError "WorkflowError")).
Proof.
  intros Hfl Hle. unfold retrieve_object, retry_decorator.
  apply (retry_loop_transient _
    (fun st =>
       let r := run_result st
                  (get_rsync_command (path_str (query_path self))
                     (path_str (local_path self)) ["-av"]) in
       if returncode r =? 0 then Ok tt
       else if name_defined G "WorkflowError"
            then Raise (WorkflowError (stdout r))
            else Raise (NameError "WorkflowError")) e) with (k := k);
    [same_fields|apply _run_cmd_quiet|apply _run_cmd_fault|done|done].
Qed.

(** X8. Faults that hit fewer attempts than [retry_decorator] makes do not
    show: when the first [k] system calls fail, [k] being at most the
    number of retries, [size], [mtime] and [retrieve_object] give the
    outcome they give with no fault at all, and so does [exists] when the
    errno is not one pathlib reads as absence. *)
Theorem transient_faults_are_hidden retries G get_rsync_command self st e k :
  faults st = List.repeat (Some e) k -> (k <= retries)%nat ->
  fst (size retries self st) = fst (size retries self (set_faults [] st)) /\
  fst (mtime retries self st) = fst (mtime retries self (set_faults [] st)) /\
  fst (retrieve_object retries G get_rsync_command self st) =
    fst (retrieve_object retries G get_rsync_command self (set_faults [] st)) /\
  (ignore_error e = false ->
   fst (exists_ retries self st) = fst (exists_ retries self (set_faults [] st))).
Proof.
  intros Hfl Hle.
  assert (faults (set_faults [] st) = List.repeat (Some e) 0) as H0 by done.
  assert (0 <= retries)%nat as Hz by lia.
  split; [|split; [|split]].
  - by rewrite (size_transient _ _ _ _ _ Hfl Hle),
               (size_transient _ _ _ e _ H0 Hz).
  - by rewrite (mtime_transient _ _ _ _ _ Hfl Hle),
               (mtime_transient _ _ _ e _ H0 Hz).
  - by rewrite (retrieve_object_transient _ _ _ _ _ _ _ Hfl Hle),
               (retrieve_object_transient _ _ _ _ _ e _ H0 Hz).
  - intros He.
    by rewrite (exists_transient _ _ _ _ _ He Hfl Hle),
               (exists_transient _ _ _ e _ He H0 Hz).
Qed.

Lemma transient_faults_are_hidden_sample :
  fst (size 2 (obj_at "lnk")
         (mk_state sample_root [] [Some EIO; Some EIO] no_output []
            IOCache.empty)) = Ok 10 /\
  fst (mtime 2 (obj_at "lnk")
         (mk_state sample_root [] [Some EIO; Some EIO] no_output []
            IOCache.empty)) = Ok 500.
Proof.
  destruct (transient_faults_are_hidden 2 module_globals sample_rsync_command
              (obj_at "lnk")
              (mk_state sample_root [] [Some EIO; Some EIO] no_output []
                 IOCache.empty) EIO 2 eq_refl ltac:(lia))
    as (H1 & H2 & _).
  split; [rewrite H1|rewrite H2]; reflexivity.
Defined.

(** X9. When every attempt fails at its first system call (the first
    [retries + 1] scheduled faults carry the same errno), [size], [mtime]
    and [retrieve_object] raise that [OSError] as it is, and so does
    [exists] when the errno is not one pathlib reads as absence; faults
    scheduled later are left unused, so no further attempt is made. *)
Theorem exhausted_retries_raise retries G get_rsync_command self st e fl :
  faults st = (List.repeat (Some e) (S retries) ++ fl)%list ->
  (exists st', size retries self st = (Raise (OSError e), st') /\
               faults st' = fl) /\
  (exists st', mtime retries self st = (Raise (OSError e), st') /\
               faults st' = fl) /\
  (exists st', retrieve_object retries G get_rsync_command self st =
               (Raise (OSError e), st') /\ faults st' = fl) /\
  (ignore_error e = false ->
   exists st', exists_ retries self st = (Raise (OSError e), st') /\
               faults st' = fl).
Proof.
  intros Hfl. unfold size, mtime, retrieve_object, exists_, retry_decorator.
  split; [|split; [|split]].
  - eapply retry_loop_exhausted; [apply size_body_fault|done].
  - eapply retry_loop_exhausted; [apply mtime_body_fault|done].
  - eapply retry_loop_exhausted; [apply _run_cmd_fault|done].
  - intros He.
    eapply retry_loop_exhausted; [by apply Path_exists_fault|done].
Qed.

Lemma exhausted_retries_raise_sample :
  exists st',
    retrieve_object 2 module_globals sample_rsync_command (obj_at "f.txt")
      (mk_state sample_root [] [Some EACCES; Some EACCES; Some EACCES; Some EIO]
         no_output [] IOCache.empty) = (Raise (OSError EACCES), st') /\
    faults st' = [Some EIO].
Proof.
  apply (exhausted_retries_raise 2 module_globals sample_rsync_command
           (obj_at "f.txt")
           (mk_state sample_root []
              [Some EACCES; Some EACCES; Some EACCES; Some EIO]
              no_output [] IOCache.empty) EACCES [Some EIO]).
  reflexivity.
Defined.

(** X10. A [stat] that fails with ENOENT, ENOTDIR, EBADF or ELOOP makes
    [exists] answer [False] at once: the failure is not retried, one call
    is made, and [inventory] of a fresh key then records the object as
    missing whatever the file tree holds. *)
Theorem absence_errno_is_not_retried retries self st n fl :
  ignore_error n = true ->
  faults st = Some n :: fl ->
  exists_ retries self st =
    (Ok false, set_faults fl (log (EvStat (query_path self) true) st)) /\
  (IOCache.exists_in_storage (cache st) !! cache_key self = None ->
   fst (inventory retries self st) = Ok tt /\
   IOCache.exists_in_storage (cache (snd (inventory retries self st)))
     !! cache_key self = Some false).
Proof.
  intros Hn Hfl.
  assert (exists_ retries self st =
          (Ok false, set_faults fl (log (EvStat (query_path self) true) st)))
    as Hex.
  { unfold exists_, retry_decorator.
    assert (Path_exists (query_path self) st =
            (Ok false, set_faults fl (log (EvStat (query_path self) true) st)))
      as H.
    { unfold Path_exists, try_except, bind, os_stat.
      rewrite (syscall_fault _ _ _ _ _ Hfl). simpl. by rewrite Hn. }
    destruct retries; simpl; by rewrite H. }
  split; [done|].
  intros Hk. rewrite (inventory_exists_false _ _ _ _ Hk Hex). simpl.
  split; [done|]. by rewrite lookup_insert_eq.
Qed.

Lemma absence_errno_is_not_retried_sample :
  exists_ 2 (obj_at "f.txt")
    (mk_state sample_root [] [Some ENOENT] no_output [] IOCache.empty) =
  (Ok false,
   mk_state sample_root [] [] no_output
     [EvStat (mk_path true ["f.txt"]) true] IOCache.empty) /\
  fs_exists sample_root [] (query_path (obj_at "f.txt")) = true.
Proof.
  split; [|reflexivity].
  apply (proj1 (absence_errno_is_not_retried 2 (obj_at "f.txt")
                  (mk_state sample_root [] [Some ENOENT] no_output []
                     IOCache.empty) ENOENT [] eq_refl eq_refl)).
Defined.

(** ** Transfers, attempt by attempt *)

Lemma retry_loop_exact {A} (f : M A) (R : State -> outcome A) ev :
  stable R ->
  (forall st, faults st = [] -> f st = (R st, logs [ev] st)) ->
  forall n st, faults st = [] ->
    retry_loop n f st =
    (R st,
     logs (List.repeat ev (match R st with Ok _ => 1 | Raise _ => S n end)) st).
Proof.
  intros HR Hf n. induction n as [|n IH]; intros st Hq; simpl.
  - rewrite (Hf st Hq). by destruct (R st).
  - rewrite (Hf st Hq). destruct (R st) as [a|e] eqn:E; [done|].
    rewrite IH by done. rewrite HR, E, logs_logs. done.
Qed.




(** ** Only the inventory writes to the cache *)

Lemma keeps_cache_raise {A} e : keeps_cache (@raise A e).
Proof. intros st r st' [= <- <-]. done. Qed.

Lemma keeps_cache_run_cmd G cmd : keeps_cache (_run_cmd G cmd).
Proof.
  unfold _run_cmd. apply keeps_cache_try.
  - apply keeps_cache_bind; [|intros; apply keeps_cache_ret].
    unfold subprocess_run.
    apply keeps_cache_bind; [apply keeps_cache_syscall|].
    intros r. destruct (returncode r =? 0);
      [apply keeps_cache_ret|apply keeps_cache_raise].
  - intros e k. destruct e; try discriminate. intros [= <-].
    apply keeps_cache_bind; [|intros; apply keeps_cache_raise].
    unfold load_name. destruct (name_defined G "WorkflowError");
      [apply keeps_cache_ret|apply keeps_cache_raise].
Qed.

Lemma keeps_cache_iterate v : keeps_cache (iterate v).
Proof.
  destruct v as [items|[p|]]; simpl; try apply keeps_cache_ret.
  apply keeps_cache_bind; [apply keeps_cache_syscall|].
  intros; apply keeps_cache_ret.
Qed.

(** X12. Apart from [inventory], no method writes to the inventory cache:
    whatever the faults and the outcome, [exists], [mtime], [size],
    [retrieve_object], [store_object], [remove], [list_candidate_matches],
    a pass over its result and [cleanup] all leave the cache as it was. *)
Theorem only_inventory_writes_cache retries G get_rsync_command
    get_constant_prefix self :
  keeps_cache (exists_ retries self) /\
  keeps_cache (mtime retries self) /\
  keeps_cache (size retries self) /\
  keeps_cache (retrieve_object retries G get_rsync_command self) /\
  keeps_cache (store_object retries self) /\
  keeps_cache (remove retries self) /\
  keeps_cache (list_candidate_matches retries G get_constant_prefix self) /\
  (forall v, keeps_cache (iterate v)) /\
  keeps_cache (cleanup self).
Proof.
  repeat split.
  - apply keeps_cache_exists.
  - apply keeps_cache_retry.
    apply keeps_cache_bind; [apply keeps_cache_os_stat|].
    intros; apply keeps_cache_stat_to_mtime.
  - apply keeps_cache_retry.
    apply keeps_cache_bind; [apply keeps_cache_os_stat|].
    intros; apply keeps_cache_ret.
  - apply keeps_cache_retry, keeps_cache_run_cmd.
  - apply keeps_cache_retry, keeps_cache_ret.
  - apply keeps_cache_retry, keeps_cache_ret.
  - apply keeps_cache_retry.
    apply keeps_cache_bind.
    + unfold load_name. destruct (name_defined G "get_constant_prefix");
        [apply keeps_cache_ret|apply keeps_cache_raise].
    + intros _. apply keeps_cache_bind; [apply keeps_cache_Path_is_dir|].
      intros [|]; apply keeps_cache_ret.
  - apply keeps_cache_iterate.
  - apply keeps_cache_ret.
Qed.

(** ** Strings cut at a character *)

Lemma app_String a h t : String a h ++ t = String a (h ++ t).
Proof. reflexivity. Qed.

Lemma app_Empty t : EmptyString ++ t = t.
Proof. reflexivity. Qed.

Lemma break_at_app p s : fst (break_at p s) ++ snd (break_at p s) = s.
Proof.
  induction s as [|a s IH]; simpl; [done|].
  destruct (p a); simpl; [done|].
  destruct (break_at p s) as [h t]. simpl in *.
  by rewrite app_String, IH.
Qed.

Lemma break_at_fst_free p s : string_existsb p (fst (break_at p s)) = false.
Proof.
  induction s as [|a s IH]; simpl; [done|].
  destruct (p a) eqn:E; simpl; [done|].
  destruct (break_at p s) as [h t]. simpl in *. by rewrite E, IH.
Qed.

Lemma break_at_free p s :
  string_existsb p s = false -> break_at p s = (s, EmptyString).
Proof.
  induction s as [|a s IH]; simpl; [done|].
  destruct (p a); simpl; [done|]. intros H. by rewrite IH.
Qed.

Lemma break_at_prefix p h t :
  string_existsb p h = false ->
  break_at p (h ++ t) = (h ++ fst (break_at p t), snd (break_at p t)).
Proof.
  induction h as [|a h IH].
  - intros _. rewrite !app_Empty. by destruct (break_at p t).
  - rewrite !app_String. simpl.
    destruct (p a); simpl; [done|]. intros H. by rewrite IH.
Qed.

Lemma break_at_hit p h a t :
  string_existsb p h = false -> p a = true ->
  break_at p (h ++ String a t) = (h, String a t).
Proof.
  intros Hh Ha. rewrite break_at_prefix by done. simpl. rewrite Ha. simpl.
  f_equal. clear. induction h as [|b h IH]; [done|].
  by rewrite app_String, IH.
Qed.

Lemma string_existsb_weaken (p q : ascii -> bool) s :
  (forall a, p a = true -> q a = true) ->
  string_existsb q s = false -> string_existsb p s = false.
Proof.
  intros Hpq. induction s as [|a s IH]; simpl; [done|].
  intros H. apply orb_false_iff in H as [Ha Hs].
  rewrite IH by done. destruct (p a) eqn:E; [|done].
  by rewrite (Hpq _ E) in Ha.
Qed.

Lemma string_existsb_app p s t :
  string_existsb p (s ++ t) = string_existsb p s || string_existsb p t.
Proof.
  induction s as [|a s IH]; [done|].
  rewrite app_String. simpl. by rewrite IH, orb_assoc.
Qed.

Lemma string_forallb_app p s t :
  string_forallb p (s ++ t) = string_forallb p s && string_forallb p t.
Proof.
  induction s as [|a s IH]; [done|].
  rewrite app_String. simpl. by rewrite IH, andb_assoc.
Qed.

Lemma remove_unsafe_app s t :
  remove_unsafe (s ++ t) = remove_unsafe s ++ remove_unsafe t.
Proof.
  induction s as [|a s IH]; [done|].
  rewrite app_String. simpl.
  destruct (is_unsafe a); [done|]. by rewrite app_String, IH.
Qed.

Lemma remove_unsafe_free s :
  string_existsb is_unsafe s = false -> remove_unsafe s = s.
Proof.
  induction s as [|a s IH]; simpl; [done|].
  destruct (is_unsafe a); simpl; [done|]. intros H. by rewrite IH.
Qed.

Lemma remove_unsafe_existsb p s :
  string_existsb p s = false -> string_existsb p (remove_unsafe s) = false.
Proof.
  induction s as [|a s IH]; simpl; [done|].
  intros H. apply orb_false_iff in H as [Ha Hs].
  destruct (is_unsafe a); simpl; [by apply IH|]. by rewrite Ha, IH.
Qed.

Lemma remove_unsafe_forallb p s :
  string_forallb p s = true -> string_forallb p (remove_unsafe s) = true.
Proof.
  induction s as [|a s IH]; simpl; [done|].
  intros H. apply andb_true_iff in H as [Ha Hs].
  destruct (is_unsafe a); simpl; [by apply IH|]. by rewrite Ha, IH.
Qed.

Lemma break_at_fst_existsb p q s :
  string_existsb q s = false -> string_existsb q (fst (break_at p s)) = false.
Proof.
  induction s as [|a s IH]; simpl; [done|].
  intros H. apply orb_false_iff in H as [Ha Hs].
  destruct (p a); simpl; [done|].
  specialize (IH Hs). destruct (break_at p s). simpl in *. by rewrite Ha, IH.
Qed.

Lemma break_at_fst_forallb p q s :
  string_forallb q s = true -> string_forallb q (fst (break_at p s)) = true.
Proof.
  induction s as [|a s IH]; simpl; [done|].
  intros H. apply andb_true_iff in H as [Ha Hs].
  destruct (p a); simpl; [done|].
  specialize (IH Hs). destruct (break_at p s). simpl in *. by rewrite Ha, IH.
Qed.

Lemma string_forallb_existsb (Q p : ascii -> bool) s :
  (forall a, Q a = true -> p a = false) ->
  string_forallb Q s = true -> string_existsb p s = false.
Proof.
  intros HQ. induction s as [|a s IH]; simpl; [done|].
  intros H. apply andb_true_iff in H as [Ha Hs].
  by rewrite (HQ _ Ha), IH.
Qed.

Lemma string_forallb_weaken (Q Q' : ascii -> bool) s :
  (forall a, Q a = true -> Q' a = true) ->
  string_forallb Q s = true -> string_forallb Q' s = true.
Proof.
  intros HQ. induction s as [|a s IH]; simpl; [done|].
  intros H. apply andb_true_iff in H as [Ha Hs].
  by rewrite (HQ _ Ha), IH.
Qed.

(** The part of [url] before [c], as the fragment and query steps of
    [urlsplit] take it. *)
Lemma split_step_fst c url :
  fst (if string_existsb (is_char c) url then split_once c url
       else (url, EmptyString)) = fst (break_at (is_char c) url).
Proof.
  destruct (string_existsb (is_char c) url) eqn:E.
  - unfold split_once. by destruct (break_at (is_char c) url) as [h [|a t]].
  - by rewrite break_at_free.
Qed.

Lemma cut_twice s :
  fst (break_at (is_char "?") (fst (break_at (is_char "#") s))) =
  fst (break_at is_hash_or_question s).
Proof.
  induction s as [|a s IH]; simpl; [done|].
  unfold is_hash_or_question at 1.
  destruct (is_char "#" a) eqn:E1; simpl; [done|].
  destruct (break_at (is_char "#") s) as [h t] eqn:Eh. simpl in *.
  destruct (is_char "?" a) eqn:E2; simpl; [done|].
  destruct (break_at (is_char "?") h) as [h' t'].
  destruct (break_at is_hash_or_question s). simpl in *. by rewrite IH.
Qed.

(** ** Queries that start with [rsync://] *)

Lemma clean_rsync rest :
  remove_unsafe (lstrip_c0 ("rsync://" ++ rest)) =
  "rsync://" ++ remove_unsafe rest.
Proof. reflexivity. Qed.

Lemma split_scheme_rsync x :
  split_scheme ("rsync://" ++ x) = ("rsync", "//" ++ x).
Proof. reflexivity. Qed.

Section QueryFacts.

Variable check_bracketed_host : string -> option string.
Variable check_nfkc : string -> option string.

Local Abbreviation urlparse := (urlparse check_bracketed_host check_nfkc).
Local Abbreviation is_valid_query :=
  (is_valid_query check_bracketed_host check_nfkc).
Local Abbreviation __post_init__ :=
  (__post_init__ check_bracketed_host check_nfkc).
Local Abbreviation local_suffix :=
  (local_suffix check_bracketed_host check_nfkc).

Lemma urlparse_rsync rest :
  urlparse ("rsync://" ++ rest) =
  let ra := remove_unsafe rest in
  let netloc := fst (break_at is_netloc_end ra) in
  let u := snd (break_at is_netloc_end ra) in
  let fr := if string_existsb (is_char "#") u then split_once "#" u
            else (u, EmptyString) in
  let qr := if string_existsb (is_char "?") (fst fr)
            then split_once "?" (fst fr) else (fst fr, EmptyString) in
  match check_brackets check_bracketed_host netloc with
  | inl e => inl e
  | inr _ =>
    match _checknetloc check_nfkc netloc with
    | inl e => inl e
    | inr _ => inr (Url.mk "rsync" netloc (fst qr) EmptyString (snd qr) (snd fr))
    end
  end.
Proof.
  unfold urlparse, urlsplit. rewrite clean_rsync, split_scheme_rsync.
  change ("//" ++ remove_unsafe rest)
    with (String "/" (String "/" (remove_unsafe rest))).
  cbv beta iota zeta.
  destruct (break_at is_netloc_end (remove_unsafe rest)) as [netloc u].
  cbn [fst snd].
  destruct (check_brackets check_bracketed_host netloc) as [e|[]]; [done|].
  destruct (if string_existsb (is_char "#") u then split_once "#" u
            else (u, EmptyString)) as [u1 fragment].
  cbn [fst snd].
  destruct (if string_existsb (is_char "?") u1 then split_once "?" u1
            else (u1, EmptyString)) as [u2 q].
  cbn [fst snd].
  destruct (_checknetloc check_nfkc netloc) as [e|[]]; [done|].
  reflexivity.
Qed.

(** The checks [urlsplit] makes on the netloc of [rsync://rest]. *)
Lemma local_suffix_rsync self rest :
  query self = "rsync://" ++ rest ->
  local_suffix self =
  let netloc := fst (break_at is_netloc_end (remove_unsafe rest)) in
  match check_brackets check_bracketed_host netloc with
  | inl e => inl e
  | inr _ =>
    match _checknetloc check_nfkc netloc with
    | inl e => inl e
    | inr _ => inr (fst (break_at is_hash_or_question (remove_unsafe rest)))
    end
  end.
Proof.
  intros Hq. unfold local_suffix. rewrite Hq, urlparse_rsync. cbv zeta.
  destruct (check_brackets _ _) as [e|[]]; [done|].
  destruct (_checknetloc _ _) as [e|[]]; [done|].
  cbn [Url.netloc Url.path]. f_equal.
  rewrite !split_step_fst, cut_twice.
  rewrite <- (break_at_app is_netloc_end (remove_unsafe rest)) at 3.
  rewrite break_at_prefix; [done|].
  eapply string_existsb_weaken; [|apply break_at_fst_free].
  intros a. unfold is_hash_or_question, is_netloc_end.
  destruct (is_char "/" a), (is_char "?" a), (is_char "#" a); done.
Qed.

Lemma urlparse_scheme q r :
  urlparse q = inr r ->
  Url.scheme r = fst (split_scheme (remove_unsafe (lstrip_c0 q))).
Proof.
  unfold urlparse, urlsplit. cbv zeta.
  destruct (split_scheme (remove_unsafe (lstrip_c0 q))) as [sch u].
  cbn [fst].
  destruct (match u with
            | String "/" (String "/" after) =>
              let '(netloc, rest) := break_at is_netloc_end after in
              match check_brackets check_bracketed_host netloc with
              | inl e => inl e
              | inr _ => inr (netloc, rest)
              end
            | _ => inr (EmptyString, u)
            end) as [e|[netloc u0]]; [done|].
  destruct (if string_existsb (is_char "#") u0 then split_once "#" u0
            else (u0, EmptyString)) as [u1 fragment].
  destruct (if string_existsb (is_char "?") u1 then split_once "?" u1
            else (u1, EmptyString)) as [u2 qy].
  destruct (_checknetloc check_nfkc netloc) as [e|[]]; [done|].
  destruct (if existsb (String.eqb sch) uses_params &&
               string_existsb (is_char ";") u2
            then _splitparams u2 else (u2, EmptyString)) as [u3 params].
  by intros [= <-].
Qed.

(** X13. A query that [is_valid_query] accepts can always be made into an
    object: [__post_init__] does not raise on it, the object's scheme is
    [rsync], and its [query_path] is the path of its [local_suffix]. *)
Theorem valid_query_builds_object self :
  StorageQueryValidationResult.valid (is_valid_query (query self)) = true ->
  exists obj suffix,
    __post_init__ self = inr obj /\
    local_suffix self = inr suffix /\
    scheme obj = "rsync" /\
    query_path obj = Path_of_str suffix /\
    query obj = query self /\
    local_path obj = local_path self /\ cache_key obj = cache_key self.
Proof.
  unfold is_valid_query, __post_init__, local_suffix.
  destruct (urlparse (query self)) as [e|r]; [done|].
  destruct (String.eqb_spec (Url.scheme r) "rsync") as [Hs|Hs]; [|done].
  intros _. eexists _, _. repeat split. exact Hs.
Qed.

(** X14. Every query [rsync://rest] whose [rest] is ASCII and free of
    square brackets is valid, braces and all: wildcards such as
    [{sample}] are accepted, and so is an empty [rest]. *)
Theorem rsync_queries_are_valid rest :
  string_forallb is_ascii rest = true ->
  string_existsb (is_char "[") rest = false ->
  string_existsb (is_char "]") rest = false ->
  is_valid_query ("rsync://" ++ rest) =
  StorageQueryValidationResult.mk ("rsync://" ++ rest) true None.
Proof.
  intros Ha Ho Hc. unfold is_valid_query. rewrite urlparse_rsync. cbv zeta.
  unfold check_brackets.
  rewrite !break_at_fst_existsb by (by apply remove_unsafe_existsb).
  cbn [andb orb negb].
  unfold _checknetloc.
  rewrite break_at_fst_forallb by (by apply remove_unsafe_forallb).
  by rewrite orb_true_r.
Qed.

Lemma break_at_tail p s h c t :
  break_at p s = (h, String c t) -> p c = true /\ s = h ++ String c t.
Proof.
  revert h. induction s as [|a s IH]; intros h; simpl; [done|].
  destruct (p a) eqn:E.
  - intros [= <- <- <-]. by rewrite app_Empty.
  - destruct (break_at p s) as [h' t']. intros [= <- ->].
    destruct (IH h' eq_refl) as [Hc ->]. by rewrite app_String.
Qed.

Lemma lower_alpha a :
  is_ascii_alpha (lower_ascii a) = true ->
  is_ascii a && is_ascii_alpha a && is_scheme_char a &&
  negb (is_char ":" a) = true.
Proof.
  destruct a as [[|] [|] [|] [|] [|] [|] [|] [|]]; vm_compute;
    intros H; (discriminate H || reflexivity).
Qed.

Lemma lower_letters s t :
  lower s = t -> string_forallb is_ascii_alpha t = true ->
  string_forallb
    (fun a => is_ascii a && is_ascii_alpha a && is_scheme_char a &&
              negb (is_char ":" a)) s = true.
Proof.
  revert t. induction s as [|a s IH]; intros t; [done|].
  simpl. intros <-. simpl. intros H. apply andb_true_iff in H as [Ha Hs].
  rewrite (lower_alpha _ Ha). by apply (IH (lower s)).
Qed.

Lemma split_scheme_of_lower s rest :
  lower s = "rsync" -> split_scheme (s ++ ":" ++ rest) = ("rsync", rest).
Proof.
  intros Hl.
  pose proof (lower_letters s "rsync" Hl eq_refl) as Hs.
  unfold split_scheme.
  change (":" ++ rest) with (String ":" rest).
  rewrite break_at_hit; [| |done].
  - destruct s as [|a h]; [done|].
    simpl in Hs. apply andb_true_iff in Hs as [Ha Hh].
    apply andb_true_iff in Ha as [[[Ha1 Ha2]%andb_true_iff Ha3]%andb_true_iff _].
    rewrite Ha1, Ha2. cbn [andb string_forallb]. rewrite Ha3.
    assert (string_forallb is_scheme_char h = true) as ->.
    { eapply string_forallb_weaken; [|exact Hh].
      intros b Hb.
      by apply andb_true_iff in Hb as [[_ Hb]%andb_true_iff _]. }
    cbn [andb]. by rewrite Hl.
  - eapply string_forallb_existsb; [|exact Hs].
    intros b Hb. apply andb_true_iff in Hb as [_ Hb].
    by destruct (is_char ":" b).
Qed.

(** X15. A query is valid exactly when [urlparse] accepts it and, once
    leading control characters and blanks are stripped and tabs and
    newlines removed, it reads [s:rest] with [s] spelling [rsync] in some
    mix of upper and lower case. *)
Theorem valid_query_iff q :
  StorageQueryValidationResult.valid (is_valid_query q) = true <->
  (exists r, urlparse q = inr r) /\
  (exists s rest,
     remove_unsafe (lstrip_c0 q) = s ++ ":" ++ rest /\ lower s = "rsync").
Proof.
  unfold is_valid_query. split.
  - destruct (urlparse q) as [e|r] eqn:E; [done|].
    destruct (String.eqb_spec (Url.scheme r) "rsync") as [Hs|Hs]; [|done].
    intros _. split; [by eexists|].
    rewrite (urlparse_scheme _ _ E) in Hs.
    unfold split_scheme in Hs.
    destruct (break_at (is_char ":") (remove_unsafe (lstrip_c0 q)))
      as [[|a h] [|c t]] eqn:Eb; try done.
    destruct (is_ascii a && is_ascii_alpha a &&
              string_forallb is_scheme_char (String a h)); [|done].
    cbn [fst] in Hs.
    destruct (break_at_tail _ _ _ _ _ Eb) as [Hc ->].
    unfold is_char in Hc. apply Ascii.eqb_eq in Hc as ->.
    by exists (String a h), t.
  - intros [[r E] (s & rest & Hc & Hl)]. rewrite E.
    rewrite (urlparse_scheme _ _ E), Hc, (split_scheme_of_lower _ _ Hl).
    done.
Qed.

Lemma break_at_fst_app_hit p s c y :
  p c = true ->
  fst (break_at p (s ++ String c y)) = fst (break_at p s).
Proof.
  intros Hc. induction s as [|a s IH].
  - rewrite app_Empty. simpl. by rewrite Hc.
  - rewrite app_String. simpl. destruct (p a); [done|].
    destruct (break_at p (s ++ String c y)), (break_at p s).
    simpl in *. by rewrite IH.
Qed.

(** X16. The fragment and the query string of a query do not reach the
    path: [rsync://rest] and the same text with [#x] or [?x] appended have
    the same [local_suffix] (or fail to parse alike), so [local_suffix]
    does not tell such queries apart. *)
Theorem local_suffix_ignores_fragment self self' rest c x :
  c = "#"%char \/ c = "?"%char ->
  query self = "rsync://" ++ rest ->
  query self' = "rsync://" ++ (rest ++ String c x) ->
  local_suffix self' = local_suffix self.
Proof.
  intros Hc Hq Hq'.
  rewrite (local_suffix_rsync _ _ Hq), (local_suffix_rsync _ _ Hq').
  cbv zeta. rewrite remove_unsafe_app.
  assert (remove_unsafe (String c x) = String c (remove_unsafe x)) as ->.
  { by destruct Hc as [-> | ->]. }
  rewrite !break_at_fst_app_hit; [done| |]; by destruct Hc as [-> | ->].
Qed.

(** The queries [example_queries] offers pass the provider's own
    validation. *)
Lemma example_queries_are_valid :
  Forall (fun e =>
            StorageQueryValidationResult.valid
              (is_valid_query (ExampleQuery.query e)) = true)
         example_queries.
Proof.
  unfold example_queries. repeat constructor.
Qed.

(** X17. For a query [rsync://rest] that parses, the scheme of the object
    is [rsync] and both [local_suffix] and [query_path] come from [rest]
    with tabs and newlines removed and everything from the first [#] or [?]
    on cut off. *)
Theorem rsync_query_path self rest obj :
  query self = "rsync://" ++ rest ->
  __post_init__ self = inr obj ->
  let cut := fst (break_at is_hash_or_question (remove_unsafe rest)) in
  local_suffix self = inr cut /\
  query_path obj = Path_of_str cut /\
  scheme obj = "rsync".
Proof.
  intros Hq Hp cut.
  pose proof (local_suffix_rsync self rest Hq) as Hl. cbv zeta in Hl.
  unfold __post_init__ in Hp. unfold local_suffix in Hl |- *.
  destruct (urlparse (query self)) as [e|r] eqn:E; [done|].
  injection Hp as <-. cbn [query_path scheme].
  destruct (check_brackets _ _) as [e|[]]; [done|].
  destruct (_checknetloc _ _) as [e|[]]; [done|].
  injection Hl as ->. fold cut. split; [done|]. split; [done|].
  rewrite (urlparse_scheme _ _ E), Hq, clean_rsync, split_scheme_rsync.
  done.
Qed.

End QueryFacts.

(** ** From a path to a query and back *)

Lemma split_on_free c x :
  string_existsb (is_char c) x = false -> split_on c x = [x].
Proof.
  induction x as [|a x IH]; simpl; [done|].
  unfold is_char at 1. destruct (Ascii.eqb a c); simpl; [done|].
  intros H. by rewrite IH.
Qed.

Lemma split_on_app c x y :
  string_existsb (is_char c) x = false ->
  split_on c (x ++ String c y) = x :: split_on c y.
Proof.
  induction x as [|a x IH].
  - intros _. rewrite app_Empty. simpl. by rewrite Ascii.eqb_refl.
  - rewrite app_String. simpl. unfold is_char at 1.
    destruct (Ascii.eqb a c); simpl; [done|].
    intros H. by rewrite IH.
Qed.

Lemma clean_part_plain s :
  clean_part s = true -> string_forallb is_plain_char s = true.
Proof.
  unfold clean_part. intros H.
  by apply andb_true_iff in H as [[H _]%andb_true_iff _].
Qed.

Lemma plain_not_slash s :
  string_forallb is_plain_char s = true ->
  string_existsb (is_char "/") s = false.
Proof.
  apply string_forallb_existsb. intros a. unfold is_plain_char.
  destruct (is_char "/" a); [|done]. by rewrite andb_false_r.
Qed.

Lemma concat_cons2 sep x y l :
  String.concat sep (x :: y :: l) = x ++ sep ++ String.concat sep (y :: l).
Proof. reflexivity. Qed.

Lemma slash_app z : "/" ++ z = String "/" z.
Proof. reflexivity. Qed.

Lemma split_on_concat l :
  l <> [] -> forallb clean_part l = true ->
  split_on "/" (String.concat "/" l) = l.
Proof.
  induction l as [|x l IH]; [done|]. intros _ H. simpl in H.
  apply andb_true_iff in H as [Hx Hl].
  pose proof (plain_not_slash _ (clean_part_plain _ Hx)) as Hs.
  destruct l as [|y l].
  - by apply split_on_free.
  - rewrite concat_cons2, slash_app, split_on_app by done. by rewrite IH.
Qed.

Lemma filter_clean l :
  forallb clean_part l = true ->
  List.filter
    (fun x => negb (String.eqb x EmptyString || String.eqb x ".")) l = l.
Proof.
  induction l as [|x l IH]; simpl; [done|].
  intros H. apply andb_true_iff in H as [Hx Hl].
  unfold clean_part in Hx.
  apply andb_true_iff in Hx as [[_ H1]%andb_true_iff H2].
  destruct (String.eqb x EmptyString); [done|].
  destruct (String.eqb x "."); [done|]. simpl. by rewrite IH.
Qed.

Lemma filter_skip_empty l :
  List.filter
    (fun x => negb (String.eqb x EmptyString || String.eqb x "."))
    (EmptyString :: l) =
  List.filter
    (fun x => negb (String.eqb x EmptyString || String.eqb x ".")) l.
Proof. reflexivity. Qed.

Lemma clean_part_head x :
  clean_part x = true -> starts_with_slash x = false.
Proof.
  intros H. pose proof (plain_not_slash _ (clean_part_plain _ H)) as Hs.
  destruct x as [|a x]; [done|]. simpl in *.
  unfold is_char in Hs. by destruct (Ascii.eqb a "/").
Qed.

Lemma starts_with_slash_app x y :
  x <> EmptyString -> starts_with_slash (x ++ y) = starts_with_slash x.
Proof. by destruct x. Qed.

(** [Path(str(p))] is [p] for a clean path. *)
Lemma Path_of_str_path_str p :
  clean_path p = true -> Path_of_str (path_str p) = p.
Proof.
  destruct p as [ab l]. unfold clean_path, path_str, Path_of_str. simpl.
  intros H. destruct l as [|x l]; [by destruct ab|].
  pose proof (split_on_concat (x :: l) ltac:(done) H) as Hsp.
  pose proof (filter_clean _ H) as Hf.
  simpl in H. apply andb_true_iff in H as [Hx Hl].
  destruct ab.
  - rewrite slash_app.
    cbn [starts_with_slash split_on]. rewrite Ascii.eqb_refl.
    rewrite Hsp, filter_skip_empty. by rewrite Hf.
  - rewrite app_Empty, Hsp, Hf. f_equal.
    destruct l as [|y l]; [by apply clean_part_head|].
    rewrite concat_cons2.
    rewrite starts_with_slash_app; [by apply clean_part_head|].
    unfold clean_part in Hx. by destruct x.
Qed.

Lemma string_forallb_concat Q sep l :
  string_forallb Q sep = true ->
  forallb (string_forallb Q) l = true ->
  string_forallb Q (String.concat sep l) = true.
Proof.
  intros Hsep. induction l as [|x l IH]; [done|].
  intros H. cbn [forallb] in H. apply andb_true_iff in H as [Hx Hl].
  destruct l as [|y l]; [done|].
  rewrite concat_cons2, !string_forallb_app, Hx, Hsep. by rewrite IH.
Qed.

Lemma path_str_chars p :
  clean_path p = true -> string_forallb is_path_char (path_str p) = true.
Proof.
  destruct p as [ab l]. unfold clean_path, path_str. simpl. intros H.
  destruct l as [|x l]; [by destruct ab|].
  rewrite string_forallb_app. apply andb_true_iff. split; [by destruct ab|].
  apply string_forallb_concat; [done|].
  clear ab. induction (x :: l) as [|z zs IH]; [done|].
  simpl in H |- *. apply andb_true_iff in H as [Hz Hzs].
  rewrite IH by done. rewrite andb_true_r.
  eapply string_forallb_weaken; [|apply clean_part_plain, Hz].
  intros a. unfold is_plain_char, is_path_char.
  destruct (is_ascii a), (is_char "/" a), (is_char "?" a), (is_char "#" a),
    (is_char "[" a), (is_char "]" a), (is_unsafe a); done.
Qed.

Ltac path_char_excludes :=
  let a := fresh in
  intros a; unfold is_path_char, is_hash_or_question;
  destruct (is_ascii a), (is_char "?" a), (is_char "#" a),
    (is_char "[" a), (is_char "]" a), (is_unsafe a); done.

(** X18. A clean path survives the passage through a query: for a path
    [p] whose components are non-empty, not [.], ASCII and free of
    [/ ? # [ ]], tabs and newlines, the object built for the query
    [rsync://] followed by [str(p)] has [p] itself as [query_path], and
    [str(p)] as [local_suffix]. *)
Theorem query_path_round_trip cbh cn self p :
  clean_path p = true ->
  query self = "rsync://" ++ path_str p ->
  __post_init__ cbh cn self =
    inr (mk_obj (query self) p "rsync" (local_path self) (cache_key self)) /\
  local_suffix cbh cn self = inr (path_str p).
Proof.
  intros Hp Hq.
  pose proof (path_str_chars p Hp) as Hc.
  pose proof (local_suffix_rsync cbh cn self _ Hq) as Hl. cbv zeta in Hl.
  assert (remove_unsafe (path_str p) = path_str p) as Hr.
  { apply remove_unsafe_free.
    eapply string_forallb_existsb; [|exact Hc]. path_char_excludes. }
  rewrite Hr in Hl.
  assert (check_brackets cbh (fst (break_at is_netloc_end (path_str p)))
          = inr tt) as Hb.
  { unfold check_brackets.
    rewrite !break_at_fst_existsb; [done| |];
      (eapply string_forallb_existsb; [|exact Hc]); path_char_excludes. }
  assert (_checknetloc cn (fst (break_at is_netloc_end (path_str p)))
          = inr tt) as Hn.
  { unfold _checknetloc. rewrite break_at_fst_forallb; [by rewrite orb_true_r|].
    eapply string_forallb_weaken; [|exact Hc].
    intros a. unfold is_path_char. by destruct (is_ascii a). }
  rewrite Hb, Hn in Hl.
  rewrite (break_at_free is_hash_or_question) in Hl
    by (eapply string_forallb_existsb; [|exact Hc]; path_char_excludes).
  cbn [fst] in Hl. split; [|exact Hl].
  unfold local_suffix in Hl. unfold __post_init__.
  destruct (urlparse cbh cn (query self)) as [e|r] eqn:E; [done|].
  injection Hl as Hl. rewrite Hl, (Path_of_str_path_str _ Hp).
  rewrite (urlparse_scheme _ _ _ _ E), Hq, clean_rsync, split_scheme_rsync.
  done.
Qed.

(** ** The system calls of a fault-free inventory *)

Lemma _stat_to_mtime_exact self stat st :
  faults st = [] ->
  _stat_to_mtime self stat st =
  (fs_stat_to_mtime (root st) (cwd st) self stat,
   logs (stat_to_mtime_trace (root st) (cwd st) self) st).
Proof.
  intros H. unfold _stat_to_mtime, fs_stat_to_mtime, stat_to_mtime_trace, bind.
  rewrite Path_is_dir_quiet by done.
  destruct (fs_is_dir (root st) (cwd st) (query_path self)); simpl; [|done].
  rewrite Path_exists_quiet by done. simpl.
  destruct (fs_exists (root st) (cwd st) (_timestamp_path self)); simpl;
    [|by rewrite logs_logs].
  rewrite os_stat_quiet by done. simpl.
  destruct (fs_stat (root st) (cwd st) false (_timestamp_path self)); simpl;
    by rewrite !logs_logs.
Qed.

Lemma exists_exact retries self st :
  faults st = [] ->
  exists_ retries self st =
  (Ok (fs_exists (root st) (cwd st) (query_path self)),
   logs [EvStat (query_path self) true] st).
Proof.
  intros H. unfold exists_, retry_decorator.
  rewrite (retry_loop_exact _
    (fun st => Ok (fs_exists (root st) (cwd st) (query_path self)))
    (EvStat (query_path self) true)); [done|done| |done].
  intros st' H'. by rewrite Path_exists_quiet.
Qed.

(** X19. Without faults, [inventory] of a fresh key makes these system
    calls and no other, in this order: the [stat] of [exists]; then, for an
    object that exists, a following [stat], the [lstat] of [is_symlink], a
    second [lstat] when it is a link, the [stat] of [is_dir], and for a
    directory the [stat] and, if it is there, the [lstat] of the sentinel.
    That is one call for a missing object and at most seven. *)
Theorem inventory_system_calls retries self st :
  faults st = [] ->
  IOCache.exists_in_storage (cache st) !! cache_key self = None ->
  calls (snd (inventory retries self st)) =
    (calls st ++ inventory_trace (root st) (cwd st) self)%list /\
  (1 <= length (inventory_trace (root st) (cwd st) self) <= 7)%nat /\
  (fs_exists (root st) (cwd st) (query_path self) = false ->
   inventory_trace (root st) (cwd st) self = [EvStat (query_path self) true]).
Proof.
  intros Hq Hk. split; [|split].
  - rewrite inventory_fresh_key by done. unfold bind, inventory_trace.
    rewrite exists_exact by done.
    destruct (fs_exists (root st) (cwd st) (query_path self)) eqn:Hex;
      simpl; [|done].
    unfold fs_exists in Hex.
    destruct (fs_stat (root st) (cwd st) true (query_path self))
      as [|s] eqn:Hs; [done|].
    unfold _stat. rewrite os_stat_quiet by done. simpl. rewrite Hs. simpl.
    rewrite Path_is_symlink_quiet by done. simpl.
    destruct (fs_is_symlink (root st) (cwd st) (query_path self)) eqn:Hl.
    + rewrite os_stat_quiet by done. simpl.
      unfold fs_is_symlink in Hl.
      destruct (fs_stat (root st) (cwd st) false (query_path self))
        as [|l]; [done|]. simpl.
      rewrite _stat_to_mtime_exact by done. simpl.
      destruct (fs_stat_to_mtime (root st) (cwd st) self l); simpl;
        by rewrite <- !app_assoc.
    + unfold ret. rewrite _stat_to_mtime_exact by done. simpl.
      destruct (fs_stat_to_mtime (root st) (cwd st) self s); simpl;
        by rewrite <- !app_assoc.
  - unfold inventory_trace, stat_to_mtime_trace.
    destruct (fs_exists (root st) (cwd st) (query_path self)),
      (fs_is_symlink (root st) (cwd st) (query_path self)),
      (fs_is_dir (root st) (cwd st) (query_path self)),
      (fs_exists (root st) (cwd st) (_timestamp_path self)); simpl; lia.
  - unfold inventory_trace. by intros ->.
Qed.

Lemma inventory_system_calls_dlnk :
  calls (snd (inventory 2 (obj_at "dlnk") sample_state)) =
    [ EvStat (mk_path true ["dlnk"]) true;
      EvStat (mk_path true ["dlnk"]) true;
      EvStat (mk_path true ["dlnk"]) false;
      EvStat (mk_path true ["dlnk"]) false;
      EvStat (mk_path true ["dlnk"]) true;
      EvStat (mk_path true ["dlnk"; ".snakemake_timestamp"]) true;
      EvStat (mk_path true ["dlnk"; ".snakemake_timestamp"]) false ].
Proof.
  destruct (inventory_system_calls 2 (obj_at "dlnk") sample_state)
    as (H & _).
  - reflexivity.
  - vm_compute. reflexivity.
  - rewrite H. reflexivity.
Defined.

(** ** The query theorems on sample queries *)

Lemma valid_query_builds_object_f :
  exists obj suffix,
    __post_init__ no_check no_check (bare_object "rsync:///f.txt") = inr obj /\
    local_suffix no_check no_check (bare_object "rsync:///f.txt") = inr suffix /\
    scheme obj = "rsync" /\
    query_path obj = Path_of_str suffix /\
    query obj = "rsync:///f.txt" /\
    local_path obj = mk_path false [] /\ cache_key obj = "rsync:///f.txt".
Proof.
  apply (valid_query_builds_object no_check no_check
           (bare_object "rsync:///f.txt")).
  reflexivity.
Defined.

Lemma rsync_queries_are_valid_wildcard :
  is_valid_query no_check no_check "rsync://results/{sample}.txt" =
  StorageQueryValidationResult.mk "rsync://results/{sample}.txt" true None.
Proof.
  apply (rsync_queries_are_valid no_check no_check "results/{sample}.txt");
    reflexivity.
Defined.

Lemma local_suffix_ignores_fragment_sample :
  local_suffix no_check no_check (bare_object "rsync://results/a.txt#old") =
  local_suffix no_check no_check (bare_object "rsync://results/a.txt").
Proof.
  apply (local_suffix_ignores_fragment no_check no_check
           (bare_object "rsync://results/a.txt")
           (bare_object "rsync://results/a.txt#old")
           "results/a.txt" "#"%char "old").
  - left. reflexivity.
  - reflexivity.
  - reflexivity.
Defined.

Lemma rsync_query_path_sample :
  local_suffix no_check no_check (bare_object "rsync://host/a/b.txt?rev=2") =
    inr "host/a/b.txt" /\
  query_path (mk_obj "rsync://host/a/b.txt?rev=2"
                (mk_path false ["host"; "a"; "b.txt"]) "rsync"
                (mk_path false []) "rsync://host/a/b.txt?rev=2") =
    Path_of_str "host/a/b.txt" /\
  scheme (mk_obj "rsync://host/a/b.txt?rev=2"
            (mk_path false ["host"; "a"; "b.txt"]) "rsync"
            (mk_path false []) "rsync://host/a/b.txt?rev=2") = "rsync".
Proof.
  apply (rsync_query_path no_check no_check
           (bare_object "rsync://host/a/b.txt?rev=2") "host/a/b.txt?rev=2").
  - reflexivity.
  - reflexivity.
Defined.

Lemma query_path_round_trip_sample :
  __post_init__ no_check no_check
    (bare_object "rsync:///tmp/storage/test/test.txt") =
  inr (mk_obj "rsync:///tmp/storage/test/test.txt"
         (mk_path true ["tmp"; "storage"; "test"; "test.txt"]) "rsync"
         (mk_path false []) "rsync:///tmp/storage/test/test.txt") /\
  local_suffix no_check no_check
    (bare_object "rsync:///tmp/storage/test/test.txt") =
  inr "/tmp/storage/test/test.txt".
Proof.
  apply (query_path_round_trip no_check no_check
           (bare_object "rsync:///tmp/storage/test/test.txt")
           (mk_path true ["tmp"; "storage"; "test"; "test.txt"]));
    reflexivity.
Defined.

Lemma valid_query_iff_upper_case :
  StorageQueryValidationResult.valid
    (is_valid_query no_check no_check "RSync://host/a.txt") = true.
Proof.
  apply (proj2 (valid_query_iff no_check no_check "RSync://host/a.txt")).
  split.
  - eexists. reflexivity.
  - exists "RSync", "//host/a.txt". split; reflexivity.
Defined.
